(** * SleighOS dashboard: log parser, text source adapter, stream scheduler

    A shallow embedding of the TypeScript sources

    - [App.tsx]: [parseLogString], [fetchMoreLogs], [processNextMessage],
      the bounded display log ([MAX_LOGS]);
    - [services/geminiService.ts]: [generateStatusBatch];

    and the properties of them that the design document states.

    Conventions of the embedding.

    - A JavaScript string is a [string]: its characters stand for UTF-16
      code units below 256.
    - Values have the types the TypeScript source declares.  Where the
      source asserts a type without checking it ([JSON.parse] ... [as
      string[]]) the embedding says so and follows the run no further.
    - [Math.random], the clock and the network are the environment: every
      value the code reads from them is an explicit argument.
    - [SEED_MESSAGES] comes from a constants module that is not among the
      sources: it is a parameter.
    - React state is kept as the value the next render will show (every
      queued update applied, in order); a ref keeps what the last
      [useEffect] stored in it.  The two differ between an update and the
      next render, and the callbacks read refs only.
    - An [async] function runs up to its [await] in the call that starts
      it and the rest when the awaited promise is settled. *)

From Stdlib Require Import String Ascii List ZArith Lia Bool Arith Permutation.
Import ListNotations.
Set Warnings "-register-all".
Local Open Scope string_scope.
Local Open Scope list_scope.

(** ** JavaScript string and array primitives used by the sources *)

Module JS.

(** [s.includes(pat)] *)
Fixpoint includes (s pat : string) : bool :=
  if String.prefix pat s then true
  else match s with
       | EmptyString => false
       | String _ s' => includes s' pat
       end.

Definition between (lo hi n : nat) : bool := Nat.leb lo n && Nat.leb n hi.

(** One code unit of [toLowerCase]: A-Z, and the capital letters of the
    Latin-1 block (U+00C0..U+00DE without the multiplication sign), move
    up by 32; every other code unit below 256 is its own lower case. *)
Definition lower_unit (c : ascii) : ascii :=
  let n := nat_of_ascii c in
  if between 65 90 n || (between 192 222 n && negb (Nat.eqb n 215))
  then ascii_of_nat (n + 32) else c.

(** [s.toLowerCase()] *)
Fixpoint toLowerCase (s : string) : string :=
  match s with
  | EmptyString => EmptyString
  | String c s' => String (lower_unit c) (toLowerCase s')
  end.

(** [s.indexOf(c)] for a one-character pattern: -1 when absent. *)
Fixpoint indexOf (s : string) (c : ascii) : Z :=
  match s with
  | EmptyString => (-1)%Z
  | String d s' =>
      if Ascii.eqb d c then 0%Z
      else let i := indexOf s' c in
           if (i =? -1)%Z then (-1)%Z else (i + 1)%Z
  end.

(** [s.lastIndexOf(c)] for a one-character pattern: -1 when absent. *)
Fixpoint lastIndexOf (s : string) (c : ascii) : Z :=
  match s with
  | EmptyString => (-1)%Z
  | String d s' =>
      let i := lastIndexOf s' c in
      if (i =? -1)%Z then (if Ascii.eqb d c then 0%Z else (-1)%Z)
      else (i + 1)%Z
  end.

Fixpoint take (n : nat) (s : string) : string :=
  match n, s with
  | S n', String c s' => String c (take n' s')
  | _, _ => EmptyString
  end.

Fixpoint drop (n : nat) (s : string) : string :=
  match n, s with
  | S n', String _ s' => drop n' s'
  | _, _ => s
  end.

Definition clamp (len : nat) (i : Z) : nat := Nat.min (Z.to_nat i) len.

(** [s.substring(a, b)]: both ends are clamped to [0, length], and
    swapped when they come in the wrong order. *)
Definition substring (s : string) (a b : Z) : string :=
  let a' := clamp (String.length s) a in
  let b' := clamp (String.length s) b in
  let from := Nat.min a' b' in
  let to := Nat.max a' b' in
  take (to - from) (drop from s).

(** [s.substr(start, len)] for [start >= 0]. *)
Definition substr (s : string) (start len : nat) : string :=
  take len (drop start s).

(** [xs.slice(-n)] for [n > 0]: the last [n] elements, all of them when
    there are fewer. *)
Definition slice_last {A} (n : nat) (xs : list A) : list A :=
  skipn (length xs - n) xs.

(** [xs.slice(0, n)]: a negative end counts from the end of the array. *)
Definition slice_to {A} (n : Z) (xs : list A) : list A :=
  if (n <? 0)%Z then firstn (length xs - Z.to_nat (- n)) xs
  else firstn (Z.to_nat n) xs.

(** [xs.join(sep)] *)
Definition join (sep : string) (xs : list string) : string :=
  String.concat sep xs.

End JS.

(** ** Regular expressions, as far as [parseLogString] needs them

    Literals, greedy repetition of a character class ([*] and [+]),
    concatenation and capture groups, matched by backtracking from the
    start of the input (the expression is anchored with [^] and has no
    [$]).  The continuation receives the unread input and the captures
    so far; a repetition tries its longest run first. *)

Module Regex.

Inductive regex : Type :=
| Lit (c : ascii)
| Star (p : ascii -> bool)
| Plus (p : ascii -> bool)
| Cat (r1 r2 : regex)
| Group (r : regex).

Section Exec.
Context {R : Type}.

Fixpoint star (p : ascii -> bool) (s : string) (k : string -> option R)
  : option R :=
  match s with
  | String c s' =>
      if p c then
        match star p s' k with
        | Some r => Some r
        | None => k s
        end
      else k s
  | EmptyString => k s
  end.

(** The text consumed between input [s] and its suffix [rest]. *)
Definition consumed (s rest : string) : string :=
  JS.take (String.length s - String.length rest) s.

Fixpoint exec (r : regex) (s : string) (caps : list string)
  (k : string -> list string -> option R) : option R :=
  match r with
  | Lit c =>
      match s with
      | String d s' => if Ascii.eqb d c then k s' caps else None
      | EmptyString => None
      end
  | Star p => star p s (fun rest => k rest caps)
  | Plus p =>
      match s with
      | String d s' => if p d then star p s' (fun rest => k rest caps) else None
      | EmptyString => None
      end
  | Cat r1 r2 => exec r1 s caps (fun rest caps' => exec r2 rest caps' k)
  | Group r1 => exec r1 s caps (fun rest caps' => k rest (caps' ++ [consumed s rest]))
  end.

End Exec.

(** [s.match(r)] for an anchored expression without the [g] flag: the
    capture groups of the first way to match, or [None] for [null]. *)
Definition matches (r : regex) (s : string) : option (list string) :=
  exec r s [] (fun _ caps => Some caps).

(** [[A-Z0-9_ ]] *)
Definition tag_char (c : ascii) : bool :=
  let n := nat_of_ascii c in
  JS.between 65 90 n || JS.between 48 57 n || Nat.eqb n 95 || Nat.eqb n 32.

(** [\s] on code units below 256: TAB, LF, VT, FF, CR, space, NBSP. *)
Definition white_space (c : ascii) : bool :=
  let n := nat_of_ascii c in
  JS.between 9 13 n || Nat.eqb n 32 || Nat.eqb n 160.

(** [.] without the [s] flag: anything but a line terminator. *)
Definition dot (c : ascii) : bool :=
  let n := nat_of_ascii c in
  negb (Nat.eqb n 10 || Nat.eqb n 13).

End Regex.

(** ** types.ts *)

Inductive LogLevel : Type := INFO | WARN | CRIT | SYS.

Record LogMessage : Type := {
  id : string;
  timestamp : string;
  level : LogLevel;
  message : string;
  system : string
}.

(** ** App.tsx: the log parser *)

Definition MAX_LOGS : nat := 50.

(** [Omit<LogMessage, 'id' | 'timestamp'>] *)
Record ParsedLog : Type := {
  p_system : string;
  p_message : string;
  p_level : LogLevel
}.

(** The pattern [^\[ ( [A-Z0-9_ ]+ ) \] \s* ( .* )] of the source, group by
    group. *)
Definition log_pattern : Regex.regex :=
  Regex.Cat (Regex.Lit "[")
    (Regex.Cat (Regex.Group (Regex.Plus Regex.tag_char))
       (Regex.Cat (Regex.Lit "]")
          (Regex.Cat (Regex.Star Regex.white_space)
             (Regex.Group (Regex.Star Regex.dot))))).

Definition infer_level (system message : string) : LogLevel :=
  let lower := JS.toLowerCase message in
  if JS.includes lower "critical" || JS.includes lower "fail"
     || JS.includes lower "error" then CRIT
  else if JS.includes lower "warning" || JS.includes lower "detect" then WARN
  else if String.eqb system "SYS" then SYS
  else INFO.

Definition parseLogString (raw : string) : ParsedLog :=
  match Regex.matches log_pattern raw with
  | Some [system; message] =>
      {| p_system := system; p_message := message;
         p_level := infer_level system message |}
  | _ => {| p_system := "UNK"; p_message := raw; p_level := INFO |}
  end.

(** ** JSON.parse

    A recursive-descent reader of the JSON grammar.  Numbers keep their
    lexeme.  [Unmodelled] marks text whose value this embedding cannot
    hold: a [\u] escape of a code unit above 255.  The reader of nested
    values runs on fuel; [parse] passes enough of it (lemma
    [parse_has_fuel] below). *)

Module JSON.

Inductive value : Type :=
| Null
| Bool (b : bool)
| Number (lexeme : string)
| Str (s : string)
| Array (vs : list value)
| Object (ms : list (string * value)).

Inductive result (A : Type) : Type :=
| Ok (a : A) (rest : string)
| SyntaxError
| Unmodelled
| OutOfFuel.
Arguments Ok {A} a rest.
Arguments SyntaxError {A}.
Arguments Unmodelled {A}.
Arguments OutOfFuel {A}.

Definition bind {A B} (r : result A) (k : A -> string -> result B) : result B :=
  match r with
  | Ok a rest => k a rest
  | SyntaxError => SyntaxError
  | Unmodelled => Unmodelled
  | OutOfFuel => OutOfFuel
  end.

Definition dquote : ascii := ascii_of_nat 34.
Definition backslash : ascii := ascii_of_nat 92.

(** JSON white space: TAB, LF, CR, space. *)
Definition ws (c : ascii) : bool :=
  let n := nat_of_ascii c in
  Nat.eqb n 9 || Nat.eqb n 10 || Nat.eqb n 13 || Nat.eqb n 32.

Fixpoint skip_ws (s : string) : string :=
  match s with
  | String c s' => if ws c then skip_ws s' else s
  | EmptyString => s
  end.

Definition digit (c : ascii) : bool := JS.between 48 57 (nat_of_ascii c).

(** The longest prefix of digits, and what follows it. *)
Fixpoint digits (s : string) : string * string :=
  match s with
  | String c s' =>
      if digit c then let (d, r) := digits s' in (String c d, r)
      else (EmptyString, s)
  | EmptyString => (EmptyString, s)
  end.

(** One character, if it is there and satisfies [p]. *)
Definition optional (p : ascii -> bool) (s : string) : string * string :=
  match s with
  | String c s' => if p c then (String c EmptyString, s') else (EmptyString, s)
  | EmptyString => (EmptyString, s)
  end.

Definition is_empty (s : string) : bool :=
  match s with
  | EmptyString => true
  | String _ _ => false
  end.

Definition hex (c : ascii) : option nat :=
  let n := nat_of_ascii c in
  if JS.between 48 57 n then Some (n - 48)
  else if JS.between 65 70 n then Some (n - 55)
  else if JS.between 97 102 n then Some (n - 87)
  else None.

Definition hex4 (a b c d : ascii) : option nat :=
  match hex a, hex b, hex c, hex d with
  | Some x, Some y, Some z, Some w => Some (((x * 16 + y) * 16 + z) * 16 + w)
  | _, _, _, _ => None
  end.

(** The code unit a one-letter escape stands for. *)
Definition escape (c : ascii) : option ascii :=
  match nat_of_ascii c with
  | 34 => Some dquote
  | 92 => Some backslash
  | 47 => Some "/"%char
  | 98 => Some (ascii_of_nat 8)
  | 102 => Some (ascii_of_nat 12)
  | 110 => Some (ascii_of_nat 10)
  | 114 => Some (ascii_of_nat 13)
  | 116 => Some (ascii_of_nat 9)
  | _ => None
  end.

(** The characters of a string literal after its opening quote, up to
    and including the closing one. *)
Fixpoint chars (s : string) : result string :=
  match s with
  | EmptyString => SyntaxError
  | String c s' =>
      if Ascii.eqb c dquote then Ok EmptyString s'
      else if Ascii.eqb c backslash then
        match s' with
        | String e s'' =>
            if Ascii.eqb e "u" then
              match s'' with
              | String h1 (String h2 (String h3 (String h4 s3))) =>
                  match hex4 h1 h2 h3 h4 with
                  | Some n =>
                      if Nat.ltb n 256
                      then bind (chars s3) (fun t r => Ok (String (ascii_of_nat n) t) r)
                      else Unmodelled
                  | None => SyntaxError
                  end
              | _ => SyntaxError
              end
            else
              match escape e with
              | Some u => bind (chars s'') (fun t r => Ok (String u t) r)
              | None => SyntaxError
              end
        | EmptyString => SyntaxError
        end
      else if Nat.ltb (nat_of_ascii c) 32 then SyntaxError
      else bind (chars s') (fun t r => Ok (String c t) r)
  end.

(** The fraction of a number, if one starts here. *)
Definition fraction (s : string) : option (string * string) :=
  match s with
  | String c r =>
      if Ascii.eqb c "." then
        let (d, r') := digits r in
        if is_empty d then None else Some (String c d, r')
      else Some (EmptyString, s)
  | EmptyString => Some (EmptyString, s)
  end.

(** The exponent of a number, if one starts here. *)
Definition exponent (s : string) : option (string * string) :=
  match s with
  | String c r =>
      if Ascii.eqb c "e" || Ascii.eqb c "E" then
        let (sg, r1) :=
          optional (fun x => Ascii.eqb x "+" || Ascii.eqb x "-") r in
        let (d, r2) := digits r1 in
        if is_empty d then None else Some (String c (sg ++ d)%string, r2)
      else Some (EmptyString, s)
  | EmptyString => Some (EmptyString, s)
  end.

(** No digit may follow a leading zero. *)
Definition well_formed_int (int : string) : bool :=
  match int with
  | EmptyString => false
  | String c EmptyString => true
  | String c (String _ _) => negb (Ascii.eqb c "0")
  end.

(** A number: its lexeme and what follows it. *)
Definition number (s : string) : result string :=
  let (sign, s1) := optional (fun x => Ascii.eqb x "-") s in
  let (int, s2) := digits s1 in
  if well_formed_int int then
    match fraction s2 with
    | Some (f, s3) =>
        match exponent s3 with
        | Some (e, s4) => Ok (sign ++ int ++ f ++ e)%string s4
        | None => SyntaxError
        end
    | None => SyntaxError
    end
  else SyntaxError.

(** [word w v s]: the literal [w] at the head of [s] reads as [v]. *)
Definition word (w : string) (v : value) (s : string) : result value :=
  if String.prefix w s then Ok v (JS.drop (String.length w) s) else SyntaxError.

Fixpoint element (fuel : nat) (s : string) : result value :=
  match fuel with
  | O => OutOfFuel
  | S fuel' =>
      match skip_ws s with
      | EmptyString => SyntaxError
      | String c s' =>
          if Ascii.eqb c dquote then bind (chars s') (fun t r => Ok (Str t) r)
          else if Ascii.eqb c "[" then
            match skip_ws s' with
            | EmptyString => SyntaxError
            | String d r =>
                if Ascii.eqb d "]" then Ok (Array []) r
                else elements fuel' s' []
            end
          else if Ascii.eqb c "{" then
            match skip_ws s' with
            | EmptyString => SyntaxError
            | String d r =>
                if Ascii.eqb d "}" then Ok (Object []) r
                else members fuel' s' []
            end
          else if Ascii.eqb c "t" then word "true" (Bool true) (String c s')
          else if Ascii.eqb c "f" then word "false" (Bool false) (String c s')
          else if Ascii.eqb c "n" then word "null" Null (String c s')
          else bind (number (String c s')) (fun l r => Ok (Number l) r)
      end
  end

with elements (fuel : nat) (s : string) (acc : list value) : result value :=
  match fuel with
  | O => OutOfFuel
  | S fuel' =>
      bind (element fuel' s) (fun v r =>
        match skip_ws r with
        | EmptyString => SyntaxError
        | String d r' =>
            if Ascii.eqb d "," then elements fuel' r' (acc ++ [v])
            else if Ascii.eqb d "]" then Ok (Array (acc ++ [v])) r'
            else SyntaxError
        end)
  end

with members (fuel : nat) (s : string) (acc : list (string * value))
  : result value :=
  match fuel with
  | O => OutOfFuel
  | S fuel' =>
      match skip_ws s with
      | EmptyString => SyntaxError
      | String c s' =>
          if Ascii.eqb c dquote then
            bind (chars s') (fun key r =>
              match skip_ws r with
              | EmptyString => SyntaxError
              | String d r' =>
                  if Ascii.eqb d ":" then
                    bind (element fuel' r') (fun v r2 =>
                      match skip_ws r2 with
                      | EmptyString => SyntaxError
                      | String x r3 =>
                          if Ascii.eqb x "," then
                            members fuel' r3 (acc ++ [(key, v)])
                          else if Ascii.eqb x "}" then
                            Ok (Object (acc ++ [(key, v)])) r3
                          else SyntaxError
                      end)
                  else SyntaxError
              end)
          else SyntaxError
      end
  end.

Inductive parsed : Type :=
| Value (v : value)
| Throws
| Beyond.

(** [JSON.parse(text)]: one value, white space around it, nothing else. *)
Definition parse (text : string) : parsed :=
  match element (2 * String.length text + 2) text with
  | Ok v rest =>
      match skip_ws rest with
      | EmptyString => Value v
      | String _ _ => Throws
      end
  | SyntaxError => Throws
  | Unmodelled => Beyond
  | OutOfFuel => Beyond
  end.

(** The value as a [string[]], when it is one. *)
Fixpoint strings (vs : list value) : option (list string) :=
  match vs with
  | [] => Some []
  | Str s :: vs' => option_map (cons s) (strings vs')
  | _ :: _ => None
  end.

Definition as_string_array (v : value) : option (list string) :=
  match v with
  | Array vs => strings vs
  | _ => None
  end.

End JSON.

(** ** The order a random comparator leaves

    [xs.sort(() => 0.5 - Math.random())] answers every comparison at
    random, so the engine's sort leaves the elements in an order of the
    environment's choosing.  The choice is the list [picks]: its n-th
    number selects (modulo what is left) the element that comes n-th. *)

Section Shuffle.
Context {A : Type}.

Definition remove_at (i : nat) (xs : list A) : list A :=
  firstn i xs ++ skipn (S i) xs.

Fixpoint shuffle_upto (n : nat) (picks : list nat) (xs : list A) : list A :=
  match n, xs with
  | S n', x :: _ =>
      let i := hd 0 picks mod length xs in
      nth i xs x :: shuffle_upto n' (tl picks) (remove_at i xs)
  | _, _ => []
  end.

Definition shuffle (picks : list nat) (xs : list A) : list A :=
  shuffle_upto (length xs) picks xs.

End Shuffle.

(** ** services/geminiService.ts: the text source adapter *)

Module GeminiService.

Definition MODEL_NAME : string := "gemini-flash-lite-latest".

Definition newline : string := String (ascii_of_nat 10) EmptyString.

(** The result [{ logs, error }] of [generateStatusBatch]. *)
Record Batch : Type := { logs : list string; error : bool }.

(** What one call of [ai.models.generateContent] carries: the model and
    the three holes of the prompt template (the fixed text around them
    and the system instruction are the same in every call). *)
Record Request : Type := {
  model : string;
  seedSample : string;
  recentExamples : string;
  count : Z
}.

(** How the request ends: with a response, whose [text] may be
    undefined, or with an error, kept as the text [JSON.stringify]
    makes of it. *)
Inductive Reply : Type :=
| Response (text : option string)
| Rejected (errorMessage : string).

(** What the caller gets.  [Untyped v]: the response parsed as [v], which
    is no [string[]]; the source asserts the type without a check, and
    the promise resolves with [logs = v]. *)
Inductive Settled : Type :=
| Returns (b : Batch)
| Untyped (v : JSON.value)
| Unmodelled.

Definition missing_key : Batch :=
  {| logs := ["[SYS] API KEY MISSING. PLEASE CONFIGURE SleighOS ENV.";
              "[ERR] MAGIC FLUX DISCONNECTED."];
     error := true |}.

Definition parse_failed : Batch :=
  {| logs := ["[WARN] DATA PARSING ERROR. RECALIBRATING..."]; error := true |}.

Definition interference : Batch :=
  {| logs := ["[ERR] INTERFERENCE DETECTED IN SECTOR 12. RETRYING..."];
     error := true |}.

(** Lines 73-78: keep the text from the first opening bracket to the last
    closing one, when both exist. *)
Definition sanitize (jsonText : string) : string :=
  let firstBracket := JS.indexOf jsonText "[" in
  let lastBracket := JS.lastIndexOf jsonText "]" in
  if negb (firstBracket =? -1)%Z && negb (lastBracket =? -1)%Z
  then JS.substring jsonText firstBracket (lastBracket + 1)%Z
  else jsonText.

(** Lines 68-86: after the response arrived. *)
Definition on_response (text : option string) : Settled :=
  match text with
  | None => Returns {| logs := []; error := false |}
  | Some EmptyString => Returns {| logs := []; error := false |}
  | Some jsonText =>
      match JSON.parse (sanitize jsonText) with
      | JSON.Value v =>
          match JSON.as_string_array v with
          | Some lines => Returns {| logs := lines; error := false |}
          | None => Untyped v
          end
      | JSON.Throws => Returns parse_failed
      | JSON.Beyond => Unmodelled
      end
  end.

(** Lines 88-105: the [catch] block.  [SEED] is [SEED_MESSAGES] as it is
    when the error arrives; the block sorts a copy. *)
Definition on_error (errorMessage : string) (count : Z)
  (picks : list nat) (SEED : list string) : Batch :=
  if JS.includes errorMessage "429"
     || JS.includes errorMessage "RESOURCE_EXHAUSTED"
  then {| logs := JS.slice_to count (shuffle picks SEED); error := true |}
  else interference.

(** The call up to its [await]: either the early return of line 26, or a
    request on the wire.  Line 38 sorts [SEED_MESSAGES] itself, not a
    copy: the second component is the array as the call leaves it. *)
Inductive Started : Type :=
| Immediate (b : Batch)
| Requested (q : Request).

Definition start (apiKey : string) (currentContext : list string) (count : Z)
  (picks : list nat) (SEED : list string) : Started * list string :=
  if String.eqb apiKey EmptyString then (Immediate missing_key, SEED)
  else
    let recentExamples := JS.join newline (JS.slice_last 10 currentContext) in
    let SEED' := shuffle picks SEED in
    let seedSample := JS.join newline (JS.slice_to 5 SEED') in
    (Requested {| model := MODEL_NAME; seedSample := seedSample;
                  recentExamples := recentExamples; count := count |},
     SEED').

(** The call from its [await] on. *)
Definition settle (count : Z) (r : Reply) (picks : list nat)
  (SEED : list string) : Settled :=
  match r with
  | Response text => on_response text
  | Rejected errorMessage => Returns (on_error errorMessage count picks SEED)
  end.

(** What the environment decides during one call. *)
Record Env : Type := {
  samplePicks : list nat;
  reply : Reply;
  fallbackPicks : list nat
}.

(** One whole call, nothing else running in between: the result, the
    requests sent, and [SEED_MESSAGES] afterwards. *)
Definition generateStatusBatch (apiKey : string) (currentContext : list string)
  (count : Z) (env : Env) (SEED : list string)
  : Settled * list Request * list string :=
  match start apiKey currentContext count (samplePicks env) SEED with
  | (Immediate b, SEED') => (Returns b, [], SEED')
  | (Requested q, SEED') =>
      (settle count (reply env) (fallbackPicks env) SEED', [q], SEED')
  end.

End GeminiService.

(** ** App.tsx: the bounded display log and the stream scheduler *)

Module App.

(** The updater of line 150: append, then keep the last [MAX_LOGS]. *)
Definition appendLog (prev : list LogMessage) (newLog : LogMessage)
  : list LogMessage :=
  JS.slice_last MAX_LOGS (prev ++ [newLog]).

(** Line 145: the id is cut out of the text of a random number in base
    36, [draw] being [Math.random().toString(36)]. *)
Definition fresh_id (draw : string) : string := JS.substr draw 2 9.

(** Lines 143-148. *)
Definition newLog (draw now : string) (nextRaw : string) : LogMessage :=
  let parsed := parseLogString nextRaw in
  {| id := fresh_id draw; timestamp := now;
     level := p_level parsed; message := p_message parsed;
     system := p_system parsed |}.

(** Line 109: one display-log entry as a line of context. *)
Definition context_line (l : LogMessage) : string :=
  ("[" ++ system l ++ "] " ++ message l)%string.

(** The component.  [logs], [buffer], [isLoading], [aiError] and
    [isRunning] are the React state; the refs follow; [timer] says that
    the timeout whose handle is in [timeoutRef] is still to fire;
    [SEED_MESSAGES] is the array of the constants module, which the
    adapter sorts in place; [awaiting] holds the calls of [fetchMoreLogs]
    that stand at their [await], oldest first; [sent] lists the requests
    put on the wire; [completed] lists, for every fetch cycle that ran to
    its end, the value it left in [useGeminiNext]. *)
Record State : Type := {
  logs : list LogMessage;
  buffer : list string;
  isLoading : bool;
  aiError : bool;
  isRunning : bool;
  logsRef : list LogMessage;
  bufferRef : list string;
  isLoadingRef : bool;
  timer : bool;
  useGeminiNext : bool;
  SEED_MESSAGES : list string;
  awaiting : list GeminiService.Started;
  sent : list GeminiService.Request;
  completed : list bool
}.

Definition setLogs (f : list LogMessage -> list LogMessage) (s : State) :=
  {| logs := f (logs s); buffer := buffer s; isLoading := isLoading s;
     aiError := aiError s; isRunning := isRunning s; logsRef := logsRef s;
     bufferRef := bufferRef s; isLoadingRef := isLoadingRef s;
     timer := timer s; useGeminiNext := useGeminiNext s;
     SEED_MESSAGES := SEED_MESSAGES s; awaiting := awaiting s;
     sent := sent s; completed := completed s |}.

Definition setBuffer (f : list string -> list string) (s : State) :=
  {| logs := logs s; buffer := f (buffer s); isLoading := isLoading s;
     aiError := aiError s; isRunning := isRunning s; logsRef := logsRef s;
     bufferRef := bufferRef s; isLoadingRef := isLoadingRef s;
     timer := timer s; useGeminiNext := useGeminiNext s;
     SEED_MESSAGES := SEED_MESSAGES s; awaiting := awaiting s;
     sent := sent s; completed := completed s |}.

Definition setIsLoading (v : bool) (s : State) :=
  {| logs := logs s; buffer := buffer s; isLoading := v;
     aiError := aiError s; isRunning := isRunning s; logsRef := logsRef s;
     bufferRef := bufferRef s; isLoadingRef := isLoadingRef s;
     timer := timer s; useGeminiNext := useGeminiNext s;
     SEED_MESSAGES := SEED_MESSAGES s; awaiting := awaiting s;
     sent := sent s; completed := completed s |}.

Definition setAiError (v : bool) (s : State) :=
  {| logs := logs s; buffer := buffer s; isLoading := isLoading s;
     aiError := v; isRunning := isRunning s; logsRef := logsRef s;
     bufferRef := bufferRef s; isLoadingRef := isLoadingRef s;
     timer := timer s; useGeminiNext := useGeminiNext s;
     SEED_MESSAGES := SEED_MESSAGES s; awaiting := awaiting s;
     sent := sent s; completed := completed s |}.

Definition setIsRunning (v : bool) (s : State) :=
  {| logs := logs s; buffer := buffer s; isLoading := isLoading s;
     aiError := aiError s; isRunning := v; logsRef := logsRef s;
     bufferRef := bufferRef s; isLoadingRef := isLoadingRef s;
     timer := timer s; useGeminiNext := useGeminiNext s;
     SEED_MESSAGES := SEED_MESSAGES s; awaiting := awaiting s;
     sent := sent s; completed := completed s |}.

(** Lines 64-66: after a render the three effects copy state to refs. *)
Definition sync_refs (s : State) :=
  {| logs := logs s; buffer := buffer s; isLoading := isLoading s;
     aiError := aiError s; isRunning := isRunning s; logsRef := logs s;
     bufferRef := buffer s; isLoadingRef := isLoading s;
     timer := timer s; useGeminiNext := useGeminiNext s;
     SEED_MESSAGES := SEED_MESSAGES s; awaiting := awaiting s;
     sent := sent s; completed := completed s |}.

Definition set_timer (v : bool) (s : State) :=
  {| logs := logs s; buffer := buffer s; isLoading := isLoading s;
     aiError := aiError s; isRunning := isRunning s; logsRef := logsRef s;
     bufferRef := bufferRef s; isLoadingRef := isLoadingRef s;
     timer := v; useGeminiNext := useGeminiNext s;
     SEED_MESSAGES := SEED_MESSAGES s; awaiting := awaiting s;
     sent := sent s; completed := completed s |}.

(** Line 124, and the note of it in [completed]. *)
Definition toggle (s : State) :=
  {| logs := logs s; buffer := buffer s; isLoading := isLoading s;
     aiError := aiError s; isRunning := isRunning s; logsRef := logsRef s;
     bufferRef := bufferRef s; isLoadingRef := isLoadingRef s;
     timer := timer s; useGeminiNext := negb (useGeminiNext s);
     SEED_MESSAGES := SEED_MESSAGES s; awaiting := awaiting s;
     sent := sent s;
     completed := completed s ++ [negb (useGeminiNext s)] |}.

(** The adapter was called and the caller stands at its [await]. *)
Definition suspend (c : GeminiService.Started * list string) (s : State) :=
  {| logs := logs s; buffer := buffer s; isLoading := isLoading s;
     aiError := aiError s; isRunning := isRunning s; logsRef := logsRef s;
     bufferRef := bufferRef s; isLoadingRef := isLoadingRef s;
     timer := timer s; useGeminiNext := useGeminiNext s;
     SEED_MESSAGES := snd c; awaiting := awaiting s ++ [fst c];
     sent := match fst c with
             | GeminiService.Requested q => sent s ++ [q]
             | GeminiService.Immediate _ => sent s
             end;
     completed := completed s |}.

Definition set_awaiting (a : list GeminiService.Started) (s : State) :=
  {| logs := logs s; buffer := buffer s; isLoading := isLoading s;
     aiError := aiError s; isRunning := isRunning s; logsRef := logsRef s;
     bufferRef := bufferRef s; isLoadingRef := isLoadingRef s;
     timer := timer s; useGeminiNext := useGeminiNext s;
     SEED_MESSAGES := SEED_MESSAGES s; awaiting := a;
     sent := sent s; completed := completed s |}.

(** The fetch cycles in flight: the calls of [fetchMoreLogs] that got
    past the guard of line 103 and have not reached line 125. *)
Definition in_flight (s : State) : nat := length (awaiting s).

(** What one call of [fetchMoreLogs] reads from the environment:
    [seedDraw] for line 117, [samplePicks] for the adapter's line 38. *)
Record FetchEnv : Type := { seedDraw : nat; samplePicks : list nat }.

(** What one run of [processNextMessage] reads: the random number of the
    id as text, the clock, and what its two calls of [fetchMoreLogs]
    read.  (The delay of line 165 decides only when the next tick
    comes.) *)
Record TickEnv : Type := {
  draw : string;
  now : string;
  onEmpty : FetchEnv;
  onLow : FetchEnv
}.

Section Component.
Variable apiKey : string.

(** Line 117: [Math.floor(Math.random() * n)] is an index below [n]; the
    empty string stands in for the [undefined] an empty corpus gives. *)
Definition randomMsg (seedDraw : nat) (SEED : list string) : string :=
  nth (seedDraw mod length SEED) SEED EmptyString.

(** Lines 112-113 and 123-125: [fetchMoreLogs] from its [await] on. *)
Definition resume (b : GeminiService.Batch) (s : State) : State :=
  setIsLoading false
    (toggle
       (setBuffer (fun prev => prev ++ GeminiService.logs b)
          (setAiError (GeminiService.error b) s))).

(** Lines 102-126: [fetchMoreLogs] up to its [await], or to its end on a
    seed turn. *)
Definition fetchMoreLogs (e : FetchEnv) (s : State) : State :=
  if isLoadingRef s then s
  else
    let s := setIsLoading true s in
    if useGeminiNext s then
      let currentMessages := map context_line (JS.slice_last 5 (logsRef s)) in
      suspend
        (GeminiService.start apiKey currentMessages 1 (samplePicks e)
           (SEED_MESSAGES s))
        s
    else
      let msg := randomMsg (seedDraw e) (SEED_MESSAGES s) in
      setIsLoading false (toggle (setBuffer (fun prev => prev ++ [msg]) s)).

(** Lines 130-167. *)
Definition processNextMessage (e : TickEnv) (s : State) : State :=
  if negb (isRunning s) then s
  else
    let '(s, currentBufferLen) :=
      match bufferRef s with
      | nextRaw :: newBuffer =>
          (setLogs (fun prev => appendLog prev (newLog (draw e) (now e) nextRaw))
             (setBuffer (fun _ => newBuffer) s),
           length newBuffer)
      | [] => (fetchMoreLogs (onEmpty e) s, 0)
      end in
    let s :=
      if Nat.ltb currentBufferLen 2 && negb (isLoadingRef s)
      then fetchMoreLogs (onLow e) s
      else s in
    set_timer true s.

(** The first render. *)
Definition initial (seeds : list string) : State :=
  {| logs := []; buffer := []; isLoading := false; aiError := false;
     isRunning := true; logsRef := []; bufferRef := [];
     isLoadingRef := false; timer := false; useGeminiNext := true;
     SEED_MESSAGES := seeds; awaiting := []; sent := []; completed := [] |}.

Record MountEnv : Type := {
  bootTimes : string * string * string;
  firstFetch : FetchEnv;
  firstTick : TickEnv
}.

(** Lines 70-74. *)
Definition initialLogs (t : string * string * string) : list LogMessage :=
  let '(t1, t2, t3) := t in
  [ {| id := "init-1"; timestamp := t1; level := SYS; system := "SYS";
       message := "SleighOS v25.12.24 Boot Sequence Initiated..." |};
    {| id := "init-2"; timestamp := t2; level := INFO; system := "NET";
       message := "Connected to North Pole Command Uplink." |};
    {| id := "init-3"; timestamp := t3; level := INFO; system := "UAS";
       message := "Drone Swarm pre-flight checks green." |} ].

(** The effects of the first render, in the order the component declares
    them: the three syncs, the initial seed (lines 69-79), the consumer
    loop (lines 169-171). *)
Definition mount (e : MountEnv) (seeds : list string) : State :=
  let s := sync_refs (initial seeds) in
  let s := setLogs (fun _ => initialLogs (bootTimes e)) s in
  let s := fetchMoreLogs (firstFetch e) s in
  processNextMessage (firstTick e) s.

(** What can happen next.
    - [Render]: React renders and the sync effects run.
    - [Tick]: the pending timeout fires.
    - [Settle i]: the adapter call that the [i]-th waiting
      [fetchMoreLogs] awaits is settled.
    - [Click]: the pause/resume button; React renders at once, the
      consumer effect is cleaned up and run again. *)
Inductive Event : Type :=
| Render
| Tick (e : TickEnv)
| Settle (i : nat) (r : GeminiService.Reply) (picks : list nat)
| Click (e : TickEnv).

(** One event; [None] when it cannot happen in this state, or when the
    adapter hands over something that is no [string[]]. *)
Definition step (ev : Event) (s : State) : option State :=
  match ev with
  | Render => Some (sync_refs s)
  | Tick e =>
      if timer s then Some (processNextMessage e (set_timer false s))
      else None
  | Settle i r picks =>
      match nth_error (awaiting s) i with
      | None => None
      | Some c =>
          let s' := set_awaiting (remove_at i (awaiting s)) s in
          match c with
          | GeminiService.Immediate b => Some (resume b s')
          | GeminiService.Requested q =>
              match GeminiService.settle (GeminiService.count q) r picks
                      (SEED_MESSAGES s) with
              | GeminiService.Returns b => Some (resume b s')
              | _ => None
              end
          end
      end
  | Click e =>
      let s := set_timer false (sync_refs (setIsRunning (negb (isRunning s)) s)) in
      Some (if isRunning s then processNextMessage e s else s)
  end.

Fixpoint run (evs : list Event) (s : State) : option State :=
  match evs with
  | [] => Some s
  | ev :: evs' =>
      match step ev s with
      | Some s' => run evs' s'
      | None => None
      end
  end.

End Component.

End App.

(** ** More JavaScript string primitives: [split], [replace] *)

Module JSText.

(** [s.split(c)] for a one-character separator: the pieces between the
    separators, at least one. *)
Fixpoint split (s : string) (c : ascii) : list string :=
  match s with
  | EmptyString => [EmptyString]
  | String d s' =>
      if Ascii.eqb d c then EmptyString :: split s' c
      else match split s' c with
           | piece :: pieces => String d piece :: pieces
           | [] => [String d EmptyString]
           end
  end.

(** The first occurrence of [pat] in [s]: what is before it and what is
    after it. *)
Fixpoint find (pat s : string) : option (string * string) :=
  if String.prefix pat s then Some (EmptyString, JS.drop (String.length pat) s)
  else match s with
       | EmptyString => None
       | String c s' =>
           match find pat s' with
           | Some (before, after) => Some (String c before, after)
           | None => None
           end
       end.

(** The text a replacement template stands for when the pattern is a
    string (no capture groups): a dollar sign followed by a dollar sign,
    an ampersand, a backquote or a quote stands for a dollar sign, the
    match, the text before it, the text after it; everything else
    stands for itself. *)
Fixpoint getSubstitution (before matched after template : string) : string :=
  match template with
  | EmptyString => EmptyString
  | String d t1 =>
      if Ascii.eqb d "$" then
        match t1 with
        | String c t2 =>
            if Ascii.eqb c "$" then
              String "$" (getSubstitution before matched after t2)
            else if Ascii.eqb c "&" then
              (matched ++ getSubstitution before matched after t2)%string
            else if Ascii.eqb c "`" then
              (before ++ getSubstitution before matched after t2)%string
            else if Ascii.eqb c "'" then
              (after ++ getSubstitution before matched after t2)%string
            else String d (getSubstitution before matched after t1)
        | EmptyString => String d EmptyString
        end
      else String d (getSubstitution before matched after t1)
  end.

(** [s.replace(pat, template)] for a string pattern: the first
    occurrence only. *)
Definition replace (s pat template : string) : string :=
  match find pat s with
  | Some (before, after) =>
      (before ++ getSubstitution before pat after template ++ after)%string
  | None => s
  end.

End JSText.

(** ** App.tsx: the clock helper *)

(** Lines 12-15, [iso] being [new Date().toISOString()]: the second of
    the pieces that the letter T separates, cut to twelve characters.
    [None]: there is no second piece, and [slice] is called on
    [undefined]. *)
Definition getTimestamp (iso : string) : option string :=
  match nth_error (JSText.split iso "T") 1 with
  | Some piece => Some (JS.take 12 piece)
  | None => None
  end.

(** ** server.js: the page with the credential in it *)

Module Server.

Definition placeholder : string := "<!--ENV_INJECTION-->".

Definition nl : string := String (ascii_of_nat 10) EmptyString.

(** [process.env.API_KEY || ''] *)
Definition key_text (API_KEY : option string) : string :=
  match API_KEY with
  | Some k => k
  | None => EmptyString
  end.

(** Lines 24-30: the template literal, line by line. *)
Definition envScript (API_KEY : option string) : string :=
  (nl ++ "      <script>"
   ++ nl ++ "        window.env = {"
   ++ nl ++ "          API_KEY: " ++ String JSON.dquote (key_text API_KEY)
   ++ String JSON.dquote EmptyString
   ++ nl ++ "        };"
   ++ nl ++ "      </script>"
   ++ nl ++ "    ")%string.

Record Reply : Type := {
  status : nat;
  contentType : option string;
  body : string
}.

(** Lines 17-37: the callback of [fs.readFile]; [htmlData] is [None]
    when the file could not be read. *)
Definition serve (API_KEY : option string) (htmlData : option string) : Reply :=
  match htmlData with
  | None =>
      {| status := 500; contentType := None; body := "Internal Server Error" |}
  | Some html =>
      {| status := 200; contentType := Some "text/html";
         body := JSText.replace html placeholder (envScript API_KEY) |}
  end.

End Server.

(** ** App.tsx: the payload counter of the status bar *)

(** Of the four numbers of [systemState] the payload ([cookieBuffer])
    is the one that stays a whole number: it starts at 84 (line 48) and
    every two seconds the interval of lines 89-99 takes one off it or
    leaves it, never below zero.  The other three go through floating
    point arithmetic and are left out. *)
Module Status.

Definition initial_cookieBuffer : Z := 84.

(** Line 94, [above] being [Math.random() > 0.8]. *)
Definition cookieBuffer_update (above : bool) (prev : Z) : Z :=
  Z.max 0 (prev - (if above then 1 else 0)).

(** The payload after the interval has fired once for each draw. *)
Definition cookieBuffer_after (draws : list bool) : Z :=
  fold_left (fun prev above => cookieBuffer_update above prev) draws
    initial_cookieBuffer.

End Status.

(** * Vocabulary of the statements *)

(** ** Strings *)

(** [pat] occurs in [s]. *)
Definition occurs (pat s : string) : Prop :=
  exists pre post, s = (pre ++ pat ++ post)%string.

(** [pat] occurs in [s], letter case aside. *)
Definition mentions (s pat : string) : Prop :=
  occurs pat (JS.toLowerCase s).

(** Every character of [s] satisfies [p]. *)
Fixpoint all_chars (p : ascii -> bool) (s : string) : Prop :=
  match s with
  | EmptyString => True
  | String c s' => p c = true /\ all_chars p s'
  end.

(** The character [c] does not occur in [s]. *)
Definition lacks (c : ascii) (s : string) : Prop :=
  all_chars (fun d => negb (Ascii.eqb d c)) s.

Fixpoint take_while (p : ascii -> bool) (s : string) : string :=
  match s with
  | String c s' => if p c then String c (take_while p s') else EmptyString
  | EmptyString => EmptyString
  end.

Fixpoint drop_while (p : ascii -> bool) (s : string) : string :=
  match s with
  | String c s' => if p c then drop_while p s' else s
  | EmptyString => EmptyString
  end.

(** [s] between double quotes. *)
Definition quoted (s : string) : string :=
  String JSON.dquote (s ++ String JSON.dquote EmptyString).

(** ** Log lines *)

(** The line starts with a bracketed tag: an opening bracket, one or more
    of A-Z, 0-9, underscore and space, a closing bracket. *)
Definition tagged (raw : string) : Prop :=
  exists tag rest,
    raw = ("[" ++ tag ++ "]" ++ rest)%string
    /\ tag <> EmptyString /\ all_chars Regex.tag_char tag.

(** What [parseLogString] keeps of the text behind the tag: leading
    white space goes, and so does everything from the first line break
    on. *)
Definition message_of (rest : string) : string :=
  take_while Regex.dot (drop_while Regex.white_space rest).

(** The pattern of the source, read off as a function. *)
Definition split_tag (raw : string) : option (list string) :=
  match raw with
  | String "[" s =>
      match take_while Regex.tag_char s, drop_while Regex.tag_char s with
      | String c t, String "]" r => Some [String c t; message_of r]
      | _, _ => None
      end
  | _ => None
  end.

(** ** The alternation flag *)

(** Consecutive entries differ. *)
Definition alternates (l : list bool) : Prop :=
  forall i a b, nth_error l i = Some a -> nth_error l (S i) = Some b -> b = negb a.

(** The flag and the record of completed cycles agree: the n-th cycle to
    complete left the flag false for odd n and true for even n, and the
    flag is what the last one left (true when none has completed). *)
Definition in_step (s : App.State) : Prop :=
  App.useGeminiNext s = Nat.even (length (App.completed s))
  /\ App.completed s = map Nat.even (seq 1 (length (App.completed s))).

(** ** Inputs to try the statements on *)

(** The response of the design document: an array of two lines with a
    preamble before it and a word behind. *)
Definition chatty_response : string :=
  ("Sure! " ++ "[" ++ (quoted "[NAV] ok" ++ ", " ++ quoted "[ENG] go") ++ "]"
   ++ " thanks")%string.

(** The serialized error of a rate-limited request. *)
Definition rate_limited : string :=
  ("{" ++ quoted "status" ++ ":429}")%string.

(** A run: a corpus of two lines; the component mounts; the first of its
    requests is answered by the response of the design document; then two
    ticks, a render before each, and the random number of both ids is one
    half, which base 36 writes [0.i]. *)
Definition sample_seeds : list string := ["[NAV] ok"; "[ENG] go"].

Definition sample_fetch : App.FetchEnv :=
  {| App.seedDraw := 0; App.samplePicks := [] |}.

Definition sample_tick (now : string) : App.TickEnv :=
  {| App.draw := "0.i"; App.now := now;
     App.onEmpty := sample_fetch; App.onLow := sample_fetch |}.

Definition sample_mount : App.MountEnv :=
  {| App.bootTimes := ("12:00:00.000", "12:00:00.000", "12:00:00.001");
     App.firstFetch := sample_fetch;
     App.firstTick := sample_tick "12:00:00.002" |}.

Definition sample_trace : list App.Event :=
  [ App.Settle 0 (GeminiService.Response (Some chatty_response)) [];
    App.Render;
    App.Tick (sample_tick "12:00:02.500");
    App.Render;
    App.Tick (sample_tick "12:00:05.250") ].

(** The same run up to its first tick. *)
Definition sample_before_tick : option App.State :=
  App.run "key" (firstn 2 sample_trace)
    (App.mount "key" sample_mount sample_seeds).

(** ** Vocabulary of the further properties *)

(** The message has one of the words that make a line critical. *)
Definition crit_words (msg : string) : Prop :=
  mentions msg "critical" \/ mentions msg "fail" \/ mentions msg "error".

(** The message has one of the words that make a line a warning. *)
Definition warn_words (msg : string) : Prop :=
  mentions msg "warning" \/ mentions msg "detect".

(** ** Requests and corpus lines *)

(** A request as the component sends them: the fixed model, one line
    asked for, at most five display entries as context and at most five
    corpus lines as sample. *)
Definition modest (seeds : list string) (q : GeminiService.Request) : Prop :=
  GeminiService.model q = GeminiService.MODEL_NAME
  /\ GeminiService.count q = 1%Z
  /\ (exists entries : list LogMessage,
         length entries <= 5
         /\ GeminiService.recentExamples q
            = JS.join GeminiService.newline (map App.context_line entries))
  /\ (exists sample : list string,
         length sample <= 5 /\ incl sample seeds
         /\ GeminiService.seedSample q = JS.join GeminiService.newline sample).

(** ** Runs without a working text source *)

(** The event is no response of the text source: when a request is
    settled, it is rejected. *)
Definition unanswered (ev : App.Event) : Prop :=
  match ev with
  | App.Settle _ (GeminiService.Response _) _ => False
  | _ => True
  end.

(** A line the program holds itself: a line of the corpus, or one of the
    fixed lines of the adapter for a missing key and for a failed
    request. *)
Definition stock_line (seeds : list string) (line : string) : Prop :=
  In line seeds
  \/ In line (GeminiService.logs GeminiService.missing_key)
  \/ In line (GeminiService.logs GeminiService.interference).

(** A display entry made of a stock line, or one of the three entries of
    the boot sequence. *)
Definition stock_entry (seeds : list string) (boot : list LogMessage)
  (entry : LogMessage) : Prop :=
  In entry boot
  \/ exists draw now line,
       stock_line seeds line /\ entry = App.newLog draw now line.

(** A call waiting at its [await] that was started without a key waits
    for the fixed batch of the missing key. *)
Definition keyless_or_sent (c : GeminiService.Started) : Prop :=
  match c with
  | GeminiService.Immediate b => b = GeminiService.missing_key
  | GeminiService.Requested _ => True
  end.

(** What holds of the component all along when there is no key. *)
Definition keyless (seeds : list string) (s : App.State) : Prop :=
  in_step s
  /\ App.sent s = []
  /\ App.SEED_MESSAGES s = seeds
  /\ Forall (eq (GeminiService.Immediate GeminiService.missing_key))
       (App.awaiting s)
  /\ (App.completed s <> [] -> App.aiError s = true).

(** What holds all along while no request is answered: the corpus is
    reordered at most, and the buffer, its snapshot and the display log
    hold stock lines only. *)
Definition offline (seeds : list string) (boot : list LogMessage)
  (s : App.State) : Prop :=
  Permutation seeds (App.SEED_MESSAGES s)
  /\ Forall (stock_line seeds) (App.buffer s)
  /\ Forall (stock_line seeds) (App.bufferRef s)
  /\ Forall (stock_entry seeds boot) (App.logs s)
  /\ Forall keyless_or_sent (App.awaiting s).

(** ** JSON texts *)

(** A character that a JSON string literal holds as it is: no double
    quote, no backslash, no control character. *)
Definition plain_char (c : ascii) : bool :=
  negb (Ascii.eqb c JSON.dquote) && negb (Ascii.eqb c JSON.backslash)
  && negb (Nat.ltb (nat_of_ascii c) 32).

Definition plain (s : string) : Prop := all_chars plain_char s.

(** The array of the lines as [JSON.stringify] writes it. *)
Definition stringify (lines : list string) : string :=
  ("[" ++ JS.join "," (map quoted lines) ++ "]")%string.

(** ** The status bar *)

(** How many of the draws came out above the threshold. *)
Definition highs (draws : list bool) : Z :=
  Z.of_nat (length (filter (fun above => above) draws)).

(** * Tactics *)

(** Case analysis on the condition of the first conditional of the goal. *)
Ltac case_if :=
  match goal with
  | |- context [if ?c then _ else _] => destruct c
  end.

(** A character that is not [c] falls through a match on [c]: settled by
    running through the characters. *)
Ltac other_char b H :=
  destruct b as [[] [] [] [] [] [] [] []];
  try reflexivity; try discriminate; now elim H.

(** * Strings *)

Lemma append_nil_r (s : string) : (s ++ "")%string = s.
Proof. induction s; simpl; congruence. Qed.

Lemma append_assoc (a b c : string) :
  ((a ++ b) ++ c)%string = (a ++ b ++ c)%string.
Proof. induction a; simpl; congruence. Qed.

Lemma length_append (a b : string) :
  String.length (a ++ b) = String.length a + String.length b.
Proof. induction a; simpl; congruence. Qed.

Lemma prefix_occurs (p s : string) :
  String.prefix p s = true <-> exists r, s = (p ++ r)%string.
Proof.
  revert s; induction p as [|c p IH]; intros [|d s]; simpl.
  - split; [intros _; now exists "" | reflexivity].
  - split; [intros _; now exists (String d s) | reflexivity].
  - split; [discriminate | intros [r H]; discriminate].
  - destruct (ascii_dec c d) as [->|Hne].
    + rewrite IH. split; intros [r H]; exists r; congruence.
    + split; [discriminate | intros [r H]; congruence].
Qed.

Lemma includes_unfold (s pat : string) :
  JS.includes s pat
  = if String.prefix pat s then true
    else match s with
         | EmptyString => false
         | String _ s' => JS.includes s' pat
         end.
Proof. destruct s; reflexivity. Qed.

Lemma includes_occurs (s pat : string) :
  JS.includes s pat = true <-> occurs pat s.
Proof.
  induction s as [|c s IH]; rewrite includes_unfold.
  - destruct (String.prefix pat "") eqn:E.
    + split; [intros _ | reflexivity].
      apply prefix_occurs in E as [r E]. exists "", r. exact E.
    + split; [discriminate|].
      intros (pre & post & H). destruct pre; simpl in H.
      * assert (String.prefix pat "" = true) by (apply prefix_occurs; now exists post).
        congruence.
      * discriminate.
  - destruct (String.prefix pat (String c s)) eqn:E.
    + split; [intros _ | reflexivity].
      apply prefix_occurs in E as [r E]. exists "", r. exact E.
    + rewrite IH. split.
      * intros (pre & post & H). exists (String c pre), post. simpl. congruence.
      * intros (pre & post & H). destruct pre as [|d pre]; simpl in H.
        -- assert (String.prefix pat (String c s) = true)
             by (apply prefix_occurs; now exists post).
           congruence.
        -- exists pre, post. congruence.
Qed.

Lemma take_length_prefix (a b : string) :
  JS.take (String.length a) (a ++ b) = a.
Proof. induction a; simpl; [now destruct b | congruence]. Qed.

Lemma drop_length_prefix (a b : string) :
  JS.drop (String.length a) (a ++ b) = b.
Proof. induction a; simpl; [now destruct b | congruence]. Qed.

Lemma consumed_append (a b : string) : @Regex.consumed (a ++ b) b = a.
Proof.
  unfold Regex.consumed.
  rewrite length_append, Nat.add_sub. apply take_length_prefix.
Qed.

(** ** The longest prefix in a character class *)

Section Prefix.
Variable p : ascii -> bool.

Lemma take_drop_while (s : string) :
  (take_while p s ++ drop_while p s)%string = s.
Proof. induction s as [|c s IH]; simpl; [|destruct (p c); simpl]; congruence. Qed.

Lemma take_while_all (s : string) :
  all_chars p (take_while p s).
Proof.
  induction s as [|c s IH]; simpl; [exact I|].
  destruct (p c) eqn:E; simpl; auto.
Qed.

Lemma take_while_stop (t : string) (c : ascii) (r : string) :
  all_chars p t -> p c = false ->
  take_while p (t ++ String c r) = t /\ drop_while p (t ++ String c r) = String c r.
Proof.
  intros Ht Hc. induction t as [|d t IH]; simpl in *.
  - now rewrite Hc.
  - destruct Ht as [Hd Ht]. rewrite Hd. destruct (IH Ht) as [-> ->]. now split.
Qed.

Lemma length_drop_while (s : string) :
  String.length (drop_while p s) <= String.length s.
Proof. induction s as [|c s IH]; simpl; [|destruct (p c); simpl]; lia. Qed.

Lemma consumed_take_while (s : string) :
  @Regex.consumed s (drop_while p s) = take_while p s.
Proof.
  transitivity (@Regex.consumed (take_while p s ++ drop_while p s) (drop_while p s)).
  - now rewrite take_drop_while.
  - apply consumed_append.
Qed.

End Prefix.

Local Open Scope string_scope.

(** * The JSON reader consumes input and has fuel enough *)

Lemma skip_ws_length (s : string) :
  String.length (JSON.skip_ws s) <= String.length s.
Proof. induction s as [|c s IH]; cbn; [|destruct (JSON.ws c); cbn]; lia. Qed.

Lemma digits_split (s d r : string) : JSON.digits s = (d, r) -> s = d ++ r.
Proof.
  revert d r. induction s as [|c s IH]; cbn; intros d r H.
  - now inversion H.
  - destruct (JSON.digit c); [|now inversion H].
    destruct (JSON.digits s) as [d' r'] eqn:E. inversion H; subst.
    cbn. f_equal. now apply IH.
Qed.

Lemma optional_split (p : ascii -> bool) (s x r : string) :
  JSON.optional p s = (x, r) -> s = x ++ r.
Proof.
  destruct s as [|c s]; cbn; [|destruct (p c)]; intros H; now inversion H.
Qed.

Lemma chars_shorter (n : nat) :
  forall s t r,
    String.length s <= n -> JSON.chars s = JSON.Ok t r ->
    String.length r < String.length s.
Proof.
  induction n as [|n IH]; intros [|c s] t r Hn H;
    cbn [JSON.chars String.length] in H, Hn |- *;
    try discriminate; try lia.
  destruct (Ascii.eqb c JSON.dquote); [inversion H; subst; lia|].
  destruct (Ascii.eqb c JSON.backslash).
  - destruct s as [|e s]; [discriminate|].
    destruct (Ascii.eqb e "u").
    + destruct s as [|h1 [|h2 [|h3 [|h4 s]]]]; try discriminate.
      destruct (JSON.hex4 h1 h2 h3 h4); [|discriminate].
      destruct (Nat.ltb n0 256); [|discriminate].
      destruct (JSON.chars s) as [t' r'| | |] eqn:E; try discriminate.
      inversion H; subst. apply IH in E; cbn [String.length] in *; lia.
    + destruct (JSON.escape e); [|discriminate].
      destruct (JSON.chars s) as [t' r'| | |] eqn:E; try discriminate.
      inversion H; subst. apply IH in E; cbn [String.length] in *; lia.
  - destruct (Nat.ltb (nat_of_ascii c) 32); [discriminate|].
    destruct (JSON.chars s) as [t' r'| | |] eqn:E; try discriminate.
    inversion H; subst. apply IH in E; lia.
Qed.

Lemma chars_has_fuel (n : nat) :
  forall s, String.length s <= n -> JSON.chars s <> JSON.OutOfFuel.
Proof.
  induction n as [|n IH]; intros [|c s] Hn;
    cbn [JSON.chars String.length] in Hn |- *;
    try discriminate; try lia.
  destruct (Ascii.eqb c JSON.dquote); [discriminate|].
  destruct (Ascii.eqb c JSON.backslash).
  - destruct s as [|e s]; [discriminate|].
    destruct (Ascii.eqb e "u").
    + destruct s as [|h1 [|h2 [|h3 [|h4 s]]]]; try discriminate.
      destruct (JSON.hex4 h1 h2 h3 h4); [|discriminate].
      destruct (Nat.ltb n0 256); [|discriminate].
      assert (H : JSON.chars s <> JSON.OutOfFuel) by (apply IH; cbn [String.length] in *; lia).
      destruct (JSON.chars s); cbn; congruence.
    + destruct (JSON.escape e); [|discriminate].
      assert (H : JSON.chars s <> JSON.OutOfFuel) by (apply IH; cbn [String.length] in *; lia).
      destruct (JSON.chars s); cbn; congruence.
  - destruct (Nat.ltb (nat_of_ascii c) 32); [discriminate|].
    assert (H : JSON.chars s <> JSON.OutOfFuel) by (apply IH; lia).
    destruct (JSON.chars s); cbn; congruence.
Qed.

Lemma number_split (s l r : string) :
  JSON.number s = JSON.Ok l r -> s = l ++ r /\ l <> EmptyString.
Proof.
  unfold JSON.number.
  destruct (JSON.optional _ s) as [sign s1] eqn:E1.
  destruct (JSON.digits s1) as [int s2] eqn:E2.
  destruct (JSON.well_formed_int int) eqn:Hint; [|discriminate].
  destruct (JSON.fraction s2) as [[f s3]|] eqn:E3; [|discriminate].
  destruct (JSON.exponent s3) as [[e s4]|] eqn:E4; [|discriminate].
  intros H. inversion H; subst. clear H.
  apply optional_split in E1. apply digits_split in E2. subst s s1.
  assert (H3 : s2 = f ++ s3).
  { unfold JSON.fraction in E3. destruct s2 as [|c s2]; [now inversion E3|].
    destruct (Ascii.eqb c "."); [|now inversion E3].
    destruct (JSON.digits s2) as [d r'] eqn:Ed.
    destruct (JSON.is_empty d); [discriminate|]. inversion E3; subst.
    cbn. f_equal. now apply digits_split. }
  assert (H4 : s3 = e ++ r).
  { unfold JSON.exponent in E4. destruct s3 as [|c s3]; [now inversion E4|].
    destruct (Ascii.eqb c "e" || Ascii.eqb c "E"); [|now inversion E4].
    destruct (JSON.optional _ s3) as [sg r1] eqn:Es.
    destruct (JSON.digits r1) as [d r2] eqn:Ed.
    destruct (JSON.is_empty d); [discriminate|]. inversion E4; subst.
    apply optional_split in Es. apply digits_split in Ed. subst.
    cbn [append]. f_equal. now rewrite append_assoc. }
  subst s2 s3. split.
  - now rewrite !append_assoc.
  - destruct int; [discriminate|]. destruct sign; discriminate.
Qed.

Lemma number_shorter (s l r : string) :
  JSON.number s = JSON.Ok l r -> String.length r < String.length s.
Proof.
  intros H. apply number_split in H as [-> Hl].
  rewrite length_append. destruct l; [now elim Hl | cbn; lia].
Qed.

Lemma number_has_fuel (s : string) : JSON.number s <> JSON.OutOfFuel.
Proof.
  unfold JSON.number.
  destruct (JSON.optional _ s) as [sign s1].
  destruct (JSON.digits s1) as [int s2].
  destruct (JSON.well_formed_int int); [|discriminate].
  destruct (JSON.fraction s2) as [[f s3]|]; [|discriminate].
  destruct (JSON.exponent s3) as [[e s4]|]; discriminate.
Qed.

Lemma word_shorter (w : string) (v v' : JSON.value) (s r : string) :
  w <> EmptyString -> JSON.word w v s = JSON.Ok v' r ->
  String.length r < String.length s.
Proof.
  intros Hw. unfold JSON.word. destruct (String.prefix w s) eqn:E; [|discriminate].
  intros H. inversion H; subst. apply prefix_occurs in E as [x ->].
  rewrite drop_length_prefix, length_append. destruct w; [now elim Hw | cbn; lia].
Qed.

Lemma word_has_fuel (w : string) (v : JSON.value) (s : string) :
  JSON.word w v s <> JSON.OutOfFuel.
Proof. unfold JSON.word. destruct (String.prefix w s); discriminate. Qed.

Ltac case_bind E :=
  match goal with
  | H : JSON.bind ?x _ = JSON.Ok _ _ |- _ =>
      destruct x eqn:E; cbn [JSON.bind] in H; try discriminate H
  end.

Ltac case_skip H E :=
  match type of H with
  | match JSON.skip_ws ?x with _ => _ end = _ =>
      let L := fresh "L" in
      pose proof (skip_ws_length x) as L;
      destruct (JSON.skip_ws x) eqn:E; [discriminate H|];
      cbn [String.length] in L
  end.

Ltac case_eqb H :=
  match type of H with
  | (if Ascii.eqb ?a ?b then _ else _) = _ => destruct (Ascii.eqb a b)
  end.

Lemma reader_shorter (fuel : nat) :
  (forall s v r,
      JSON.element fuel s = JSON.Ok v r -> String.length r < String.length s)
  /\ (forall s acc v r,
         JSON.elements fuel s acc = JSON.Ok v r ->
         String.length r < String.length s)
  /\ (forall s acc v r,
         JSON.members fuel s acc = JSON.Ok v r ->
         String.length r < String.length s).
Proof.
  induction fuel as [|fuel (IHe & IHes & IHms)];
    [repeat split; intros; discriminate|].
  split; [|split].
  - intros s v r H. cbn [JSON.element] in H.
    case_skip H E.
    case_eqb H.
    { case_bind C. inversion H; subst.
      apply (chars_shorter _ _ _ _ (le_n _)) in C. lia. }
    case_eqb H.
    { case_skip H E2. case_eqb H.
      - inversion H; subst. lia.
      - apply IHes in H. lia. }
    case_eqb H.
    { case_skip H E2. case_eqb H.
      - inversion H; subst. lia.
      - apply IHms in H. lia. }
    case_eqb H; [apply word_shorter in H; [cbn [String.length] in H; lia | discriminate]|].
    case_eqb H; [apply word_shorter in H; [cbn [String.length] in H; lia | discriminate]|].
    case_eqb H; [apply word_shorter in H; [cbn [String.length] in H; lia | discriminate]|].
    case_bind Hnum. inversion H; subst.
    apply number_shorter in Hnum. cbn [String.length] in Hnum. lia.
  - intros s acc v r H. cbn [JSON.elements] in H.
    case_bind C. apply IHe in C.
    case_skip H E. case_eqb H; [apply IHes in H; lia|].
    case_eqb H; [|discriminate]. inversion H; subst. lia.
  - intros s acc v r H. cbn [JSON.members] in H.
    case_skip H E. case_eqb H; [|discriminate].
    case_bind C. apply (chars_shorter _ _ _ _ (le_n _)) in C.
    case_skip H E2. case_eqb H; [|discriminate].
    case_bind V. apply IHe in V.
    case_skip H E3. case_eqb H; [apply IHms in H; lia|].
    case_eqb H; [|discriminate]. inversion H; subst. lia.
Qed.

Ltac goal_skip E :=
  match goal with
  | |- match JSON.skip_ws ?x with _ => _ end <> _ =>
      let L := fresh "L" in
      pose proof (skip_ws_length x) as L;
      destruct (JSON.skip_ws x) eqn:E; [discriminate|];
      cbn [String.length] in L
  end.

Ltac goal_eqb :=
  match goal with
  | |- (if Ascii.eqb ?a ?b then _ else _) <> _ => destruct (Ascii.eqb a b)
  end.

Ltac goal_bind E tac :=
  match goal with
  | |- JSON.bind ?x _ <> _ =>
      let F := fresh "F" in
      assert (F : x <> JSON.OutOfFuel) by tac;
      destruct x eqn:E; cbn [JSON.bind]; try discriminate; try (now elim F);
      clear F
  end.

Lemma reader_has_fuel (fuel : nat) :
  (forall s,
      2 * String.length s + 2 <= fuel -> JSON.element fuel s <> JSON.OutOfFuel)
  /\ (forall s acc,
         2 * String.length s + 3 <= fuel ->
         JSON.elements fuel s acc <> JSON.OutOfFuel)
  /\ (forall s acc,
         2 * String.length s + 3 <= fuel ->
         JSON.members fuel s acc <> JSON.OutOfFuel).
Proof.
  induction fuel as [|fuel (IHe & IHes & IHms)];
    [repeat split; intros; lia|].
  split; [|split].
  - intros s Hf. cbn [JSON.element].
    goal_skip E.
    goal_eqb.
    { goal_bind C ltac:(apply (chars_has_fuel _ _ (le_n _))). }
    goal_eqb.
    { goal_skip E2. goal_eqb; [discriminate|]. apply IHes. lia. }
    goal_eqb.
    { goal_skip E2. goal_eqb; [discriminate|]. apply IHms. lia. }
    goal_eqb; [apply word_has_fuel|].
    goal_eqb; [apply word_has_fuel|].
    goal_eqb; [apply word_has_fuel|].
    goal_bind Hnum ltac:(apply number_has_fuel).
  - intros s acc Hf. cbn [JSON.elements].
    goal_bind C ltac:(apply IHe; lia).
    apply (proj1 (reader_shorter fuel)) in C.
    goal_skip E. goal_eqb; [apply IHes; lia|].
    goal_eqb; discriminate.
  - intros s acc Hf. cbn [JSON.members].
    goal_skip E. goal_eqb; [|discriminate].
    goal_bind C ltac:(apply (chars_has_fuel _ _ (le_n _))).
    apply (chars_shorter _ _ _ _ (le_n _)) in C.
    goal_skip E2. goal_eqb; [|discriminate].
    goal_bind V ltac:(apply IHe; lia).
    apply (proj1 (reader_shorter fuel)) in V.
    goal_skip E3. goal_eqb; [apply IHms; lia|].
    goal_eqb; discriminate.
Qed.

(** [JSON.parse] gives its reader all the fuel it can use. *)
Lemma parse_has_fuel (text : string) :
  JSON.element (2 * String.length text + 2) text <> JSON.OutOfFuel.
Proof. apply reader_has_fuel. lia. Qed.

Ltac both_skip :=
  match goal with
  | |- match JSON.skip_ws ?x with _ => _ end = _ =>
      destruct (JSON.skip_ws x); [reflexivity|]
  end.

Ltac both_eqb :=
  match goal with
  | |- (if Ascii.eqb ?a ?b then _ else _) = _ => destruct (Ascii.eqb a b)
  end.

Ltac both_bind :=
  match goal with
  | |- JSON.bind ?x _ = JSON.bind ?x _ =>
      destruct x; cbn [JSON.bind] in *; try reflexivity
  end.

(** Fuel that was enough stays enough, and the result stays the same. *)
Lemma reader_stable (fuel : nat) :
  (forall s,
      JSON.element fuel s <> JSON.OutOfFuel ->
      JSON.element (S fuel) s = JSON.element fuel s)
  /\ (forall s acc,
         JSON.elements fuel s acc <> JSON.OutOfFuel ->
         JSON.elements (S fuel) s acc = JSON.elements fuel s acc)
  /\ (forall s acc,
         JSON.members fuel s acc <> JSON.OutOfFuel ->
         JSON.members (S fuel) s acc = JSON.members fuel s acc).
Proof.
  induction fuel as [|fuel (IHe & IHes & IHms)];
    [repeat split; intros; exfalso; auto|].
  split; [|split].
  - intros s Hne. cbn [JSON.element] in Hne |- *.
    both_skip. both_eqb; [reflexivity|].
    both_eqb; [both_skip; both_eqb; [reflexivity | now apply IHes]|].
    both_eqb; [both_skip; both_eqb; [reflexivity | now apply IHms]|].
    reflexivity.
  - intros s acc Hne. cbn [JSON.elements] in Hne |- *.
    rewrite IHe by (intros F; rewrite F in Hne; now apply Hne).
    both_bind. both_skip. both_eqb; [now apply IHes | reflexivity].
  - intros s acc Hne. cbn [JSON.members] in Hne |- *.
    both_skip. both_eqb; [|reflexivity].
    both_bind. both_skip. both_eqb; [|reflexivity].
    rewrite IHe by (intros F; rewrite F in Hne; now apply Hne).
    both_bind. both_skip. both_eqb; [now apply IHms | reflexivity].
Qed.

(** More fuel than [JSON.parse] passes changes nothing. *)
Lemma parse_fuel_enough (text : string) (extra : nat) :
  JSON.element (2 * String.length text + 2 + extra) text
  = JSON.element (2 * String.length text + 2) text.
Proof.
  induction extra as [|extra IH]; [now rewrite Nat.add_0_r|].
  rewrite Nat.add_succ_r, <- IH.
  apply reader_stable, reader_has_fuel. lia.
Qed.

Local Open Scope list_scope.

(** * The regular expression of the parser *)

(** A repetition whose continuation accepts what is left after the
    longest run takes that run. *)
Lemma star_longest {R} (p : ascii -> bool) (s : string)
  (k : string -> option R) (r : R) :
  k (drop_while p s) = Some r -> Regex.star p s k = Some r.
Proof.
  induction s as [|c s IH]; simpl; [auto|].
  destruct (p c); [|auto]. intros H. now rewrite (IH H).
Qed.

(** A repetition whose continuation refuses every input that starts with
    a character of the class has nothing to gain from giving back. *)
Lemma star_no_backtrack {R} (p : ascii -> bool) (s : string)
  (k : string -> option R) :
  (forall c s', p c = true -> k (String c s') = None) ->
  Regex.star p s k = k (drop_while p s).
Proof.
  intros Hk. induction s as [|c s IH]; simpl; [reflexivity|].
  destruct (p c) eqn:E; [|reflexivity].
  rewrite IH. destruct (k (drop_while p s)); [reflexivity | auto].
Qed.

Lemma tag_char_close : Regex.tag_char "]" = false.
Proof. reflexivity. Qed.

Lemma matches_split_tag (raw : string) :
  Regex.matches log_pattern raw = split_tag raw.
Proof.
  unfold Regex.matches, log_pattern, split_tag.
  destruct raw as [|b s]; [reflexivity|].
  cbn [Regex.exec].
  destruct (Ascii.eqb_spec b "[") as [->|Hb].
  2:{ other_char b Hb. }
  destruct s as [|d s]; [reflexivity|].
  cbn [take_while drop_while].
  destruct (Regex.tag_char d) eqn:Hd.
  2:{ destruct (Ascii.eqb d "]"); reflexivity. }
  rewrite star_no_backtrack.
  2:{ intros c s' Hc. destruct (Ascii.eqb_spec c "]") as [->|]; [|reflexivity].
      rewrite tag_char_close in Hc. discriminate. }
  destruct (drop_while Regex.tag_char s) as [|e r] eqn:Hrest; [reflexivity|].
  destruct (Ascii.eqb_spec e "]") as [->|He].
  2:{ other_char e He. }
  erewrite star_longest; [reflexivity|].
  erewrite star_longest; [|reflexivity].
  cbn [app]. f_equal. f_equal.
  - rewrite <- Hrest. unfold Regex.consumed. cbn [String.length].
    replace (S (String.length s) - String.length (drop_while Regex.tag_char s))
      with (S (String.length s - String.length (drop_while Regex.tag_char s)))
      by (pose proof (length_drop_while Regex.tag_char s); lia).
    cbn [JS.take]. f_equal. apply consumed_take_while.
  - f_equal. apply consumed_take_while.
Qed.

Lemma split_tag_tagged (tag rest : string) :
  tag <> EmptyString -> all_chars Regex.tag_char tag ->
  split_tag ("[" ++ tag ++ "]" ++ rest) = Some [tag; message_of rest].
Proof.
  intros Hne Hall. cbn [append split_tag].
  destruct (take_while_stop Regex.tag_char tag "]" rest Hall tag_char_close)
    as [Ht Hd].
  cbn [append]. rewrite Ht, Hd.
  destruct tag; [now elim Hne | reflexivity].
Qed.

Lemma split_tag_some (raw : string) (caps : list string) :
  split_tag raw = Some caps -> tagged raw.
Proof.
  unfold split_tag. destruct raw as [|b s]; [discriminate|].
  destruct (Ascii.eqb_spec b "[") as [->|Hb].
  2:{ other_char b Hb. }
  destruct (take_while Regex.tag_char s) as [|c t] eqn:Ht; [discriminate|].
  destruct (drop_while Regex.tag_char s) as [|e r] eqn:Hd; [discriminate|].
  destruct (Ascii.eqb_spec e "]") as [->|He].
  2:{ other_char e He. }
  intros _. exists (String c t), r. split; [|split].
  - cbn [append]. f_equal.
    change (s = (String c t ++ String "]" r)%string).
    rewrite <- Ht, <- Hd. symmetry. apply take_drop_while.
  - discriminate.
  - rewrite <- Ht. apply take_while_all.
Qed.

(** A line with a tag parses into the tag, the message behind it, and
    the level the message implies. *)
Lemma parse_tagged (tag rest : string) :
  tag <> EmptyString -> all_chars Regex.tag_char tag ->
  parseLogString ("[" ++ tag ++ "]" ++ rest)
  = {| p_system := tag; p_message := message_of rest;
       p_level := infer_level tag (message_of rest) |}.
Proof.
  intros Hne Hall. unfold parseLogString.
  now rewrite matches_split_tag, split_tag_tagged.
Qed.

(** The first line of the design document's examples. *)
Example parse_nav :
  parseLogString "[NAV] Waypoint acquired."
  = {| p_system := "NAV"; p_message := "Waypoint acquired."; p_level := INFO |}.
Proof. reflexivity. Qed.

(** * C7 *)

(** C7. A line that starts with a bracketed tag and whose message
    mentions, whatever the letter case, one of critical, fail, error and
    also one of warning, detect is given the level CRIT: the CRIT
    keywords are looked for first.  The message is the text behind the
    tag, without leading white space and up to the first line break.  So
    it is for the line of the design document. *)
Theorem crit_keywords_win :
  (forall raw : string,
      tagged raw ->
      mentions (p_message (parseLogString raw)) "critical"
      \/ mentions (p_message (parseLogString raw)) "fail"
      \/ mentions (p_message (parseLogString raw)) "error" ->
      mentions (p_message (parseLogString raw)) "warning"
      \/ mentions (p_message (parseLogString raw)) "detect" ->
      p_level (parseLogString raw) = CRIT)
  /\ (forall tag rest : string,
         tag <> EmptyString -> all_chars Regex.tag_char tag ->
         p_system (parseLogString ("[" ++ tag ++ "]" ++ rest)) = tag
         /\ p_message (parseLogString ("[" ++ tag ++ "]" ++ rest))
            = message_of rest)
  /\ parseLogString "[SYS] Critical failure detected."
     = {| p_system := "SYS"; p_message := "Critical failure detected.";
          p_level := CRIT |}.
Proof.
  split; [|split; [|reflexivity]].
  - intros raw (tag & rest & -> & Hne & Hall).
    rewrite parse_tagged by assumption. cbn [p_message p_level].
    intros Hcrit _. unfold infer_level, mentions in *.
    rewrite <- !includes_occurs in Hcrit.
    destruct Hcrit as [-> | [-> | ->]];
      rewrite ?orb_true_r; reflexivity.
  - intros tag rest Hne Hall. rewrite parse_tagged by assumption.
    split; reflexivity.
Qed.

Lemma crit_keywords_win_witness :
  tagged "[SYS] Critical failure detected."
  /\ mentions (p_message (parseLogString "[SYS] Critical failure detected."))
       "critical"
  /\ mentions (p_message (parseLogString "[SYS] Critical failure detected."))
       "detect"
  /\ p_level (parseLogString "[SYS] Critical failure detected.") = CRIT.
Proof.
  assert (H1 : tagged "[SYS] Critical failure detected.").
  { exists "SYS", " Critical failure detected.".
    split; [reflexivity|]. split; [discriminate | simpl; auto]. }
  assert (H2 : mentions (p_message (parseLogString "[SYS] Critical failure detected."))
                 "critical")
    by (exists "", " failure detected."; reflexivity).
  assert (H3 : mentions (p_message (parseLogString "[SYS] Critical failure detected."))
                 "detect")
    by (exists "critical failure ", "ed."; reflexivity).
  split; [exact H1|]. split; [exact H2|]. split; [exact H3|].
  exact (proj1 crit_keywords_win "[SYS] Critical failure detected."
           H1 (or_introl H2) (or_intror H3)).
Defined.

(** * C8 *)

(** C8. A line that does not start with a bracketed tag comes back with
    system UNK, level INFO and the whole line, unchanged, as its message.
    So it is for the line of the design document. *)
Theorem untagged_line_kept_whole :
  (forall raw : string,
      ~ tagged raw ->
      parseLogString raw
      = {| p_system := "UNK"; p_message := raw; p_level := INFO |})
  /\ parseLogString "no brackets here"
     = {| p_system := "UNK"; p_message := "no brackets here";
          p_level := INFO |}.
Proof.
  split; [|reflexivity].
  intros raw Hno. unfold parseLogString. rewrite matches_split_tag.
  destruct (split_tag raw) as [caps|] eqn:E; [|reflexivity].
  elim Hno. eapply split_tag_some, E.
Qed.

Lemma untagged_line_kept_whole_witness :
  ~ tagged "no brackets here"
  /\ parseLogString "no brackets here"
     = {| p_system := "UNK"; p_message := "no brackets here";
          p_level := INFO |}.
Proof.
  assert (H : ~ tagged "no brackets here")
    by (intros (tag & rest & E & _); discriminate E).
  split; [exact H|].
  exact (proj1 untagged_line_kept_whole "no brackets here" H).
Defined.

(** * The adapter: sanitizing the response *)

Lemma indexOf_first (c : ascii) (pre r : string) :
  lacks c pre ->
  JS.indexOf (pre ++ String c r) c = Z.of_nat (String.length pre).
Proof.
  unfold lacks. induction pre as [|d pre IH]; cbn [append JS.indexOf all_chars String.length].
  - intros _. now rewrite Ascii.eqb_refl.
  - intros [Hd Hpre]. apply negb_true_iff in Hd. rewrite Hd, (IH Hpre).
    destruct (Z.eqb_spec (Z.of_nat (String.length pre)) (-1)); lia.
Qed.

Lemma lastIndexOf_absent (c : ascii) (s : string) :
  lacks c s -> JS.lastIndexOf s c = (-1)%Z.
Proof.
  unfold lacks. induction s as [|d s IH]; cbn [JS.lastIndexOf all_chars]; [reflexivity|].
  intros [Hd Hs]. apply negb_true_iff in Hd. now rewrite (IH Hs), Hd.
Qed.

Lemma lastIndexOf_last (c : ascii) (a post : string) :
  lacks c post ->
  JS.lastIndexOf (a ++ String c post) c = Z.of_nat (String.length a).
Proof.
  intros Hpost. induction a as [|d a IH]; cbn [append JS.lastIndexOf String.length].
  - rewrite (lastIndexOf_absent _ _ Hpost). cbn. now rewrite Ascii.eqb_refl.
  - rewrite IH.
    destruct (Z.eqb_spec (Z.of_nat (String.length a)) (-1)); lia.
Qed.

Lemma substring_middle (pre mid post : string) :
  JS.substring (pre ++ mid ++ post)
    (Z.of_nat (String.length pre))
    (Z.of_nat (String.length pre + String.length mid))
  = mid.
Proof.
  unfold JS.substring, JS.clamp.
  rewrite !length_append, !Nat2Z.id.
  replace (Nat.min (String.length pre) (String.length pre + (String.length mid + String.length post)))
    with (String.length pre) by lia.
  replace (Nat.min (String.length pre + String.length mid)
             (String.length pre + (String.length mid + String.length post)))
    with (String.length pre + String.length mid) by lia.
  replace (Nat.min (String.length pre) (String.length pre + String.length mid))
    with (String.length pre) by lia.
  replace (Nat.max (String.length pre) (String.length pre + String.length mid)
           - String.length pre)
    with (String.length mid) by lia.
  now rewrite drop_length_prefix, take_length_prefix.
Qed.

(** Wrapped text is cut down to the brackets and what they enclose. *)
Lemma sanitize_wrapped (pre mid post : string) :
  lacks "[" pre -> lacks "]" post ->
  GeminiService.sanitize (pre ++ "[" ++ mid ++ "]" ++ post)
  = ("[" ++ mid ++ "]")%string.
Proof.
  intros Hpre Hpost. unfold GeminiService.sanitize.
  cbn [append].
  rewrite (indexOf_first "[" pre _ Hpre).
  replace (pre ++ String "[" (mid ++ String "]" post))%string
    with ((pre ++ String "[" mid) ++ String "]" post)%string
    by (rewrite append_assoc; reflexivity).
  rewrite (lastIndexOf_last "]" _ post Hpost).
  destruct (Z.eqb_spec (Z.of_nat (String.length pre)) (-1)); [lia|].
  destruct (Z.eqb_spec (Z.of_nat (String.length (pre ++ String "[" mid))) (-1)); [lia|].
  cbn [negb andb].
  replace (Z.of_nat (String.length (pre ++ String "[" mid)) + 1)%Z
    with (Z.of_nat (String.length pre + String.length (String "[" (mid ++ "]"))))
    by (rewrite !length_append; cbn [String.length]; rewrite length_append; cbn [String.length]; lia).
  replace ((pre ++ String "[" mid) ++ String "]" post)%string
    with (pre ++ String "[" (mid ++ "]") ++ post)%string.
  - apply substring_middle.
  - rewrite append_assoc. cbn [append]. f_equal. f_equal.
    rewrite append_assoc. reflexivity.
Qed.

Lemma on_response_text (c : ascii) (t : string) :
  GeminiService.on_response (Some (String c t))
  = match JSON.parse (GeminiService.sanitize (String c t)) with
    | JSON.Value v =>
        match JSON.as_string_array v with
        | Some lines =>
            GeminiService.Returns
              {| GeminiService.logs := lines; GeminiService.error := false |}
        | None => GeminiService.Untyped v
        end
    | JSON.Throws => GeminiService.Returns GeminiService.parse_failed
    | JSON.Beyond => GeminiService.Unmodelled
    end.
Proof. reflexivity. Qed.

Lemma with_key (apiKey : string) (currentContext : list string) (count : Z)
  (env : GeminiService.Env) (SEED : list string) :
  apiKey <> EmptyString ->
  GeminiService.generateStatusBatch apiKey currentContext count env SEED
  = (GeminiService.settle count (GeminiService.reply env)
       (GeminiService.fallbackPicks env)
       (shuffle (GeminiService.samplePicks env) SEED),
     [ {| GeminiService.model := GeminiService.MODEL_NAME;
          GeminiService.seedSample :=
            JS.join GeminiService.newline
              (JS.slice_to 5 (shuffle (GeminiService.samplePicks env) SEED));
          GeminiService.recentExamples :=
            JS.join GeminiService.newline (JS.slice_last 10 currentContext);
          GeminiService.count := count |} ],
     shuffle (GeminiService.samplePicks env) SEED).
Proof.
  intros Hkey. unfold GeminiService.generateStatusBatch, GeminiService.start.
  destruct (String.eqb_spec apiKey EmptyString); [contradiction | reflexivity].
Qed.

Local Open Scope string_scope.

Lemma on_response_sanitized (s : string) :
  s <> EmptyString ->
  GeminiService.sanitize (GeminiService.sanitize s) = GeminiService.sanitize s ->
  GeminiService.sanitize s <> EmptyString ->
  GeminiService.on_response (Some s)
  = GeminiService.on_response (Some (GeminiService.sanitize s)).
Proof.
  intros Hs Hidem Hne.
  destruct s as [|c t]; [now elim Hs|].
  destruct (GeminiService.sanitize (String c t)) as [|d u] eqn:E; [now elim Hne|].
  rewrite !on_response_text, E, Hidem. reflexivity.
Qed.

(** * C6 *)

(** C6. When the response text has a JSON array between other
    characters, the adapter parses the text from the first opening
    bracket to the last closing one: the wrapped text is treated as the
    bare array is.  The response of the design document yields its two
    lines, and no error. *)
Theorem response_cut_to_brackets :
  (forall pre mid post : string,
      lacks "[" pre -> lacks "]" post ->
      GeminiService.sanitize (pre ++ "[" ++ mid ++ "]" ++ post)
      = ("[" ++ mid ++ "]")%string
      /\ GeminiService.on_response (Some (pre ++ "[" ++ mid ++ "]" ++ post))
         = GeminiService.on_response (Some ("[" ++ mid ++ "]")%string))
  /\ (forall (c : ascii) (k : string) (currentContext : list string)
        (count : Z) (picks picks' : list nat) (SEED : list string),
         fst (fst (GeminiService.generateStatusBatch (String c k) currentContext
                     count
                     {| GeminiService.samplePicks := picks;
                        GeminiService.reply :=
                          GeminiService.Response (Some chatty_response);
                        GeminiService.fallbackPicks := picks' |}
                     SEED))
         = GeminiService.Returns
             {| GeminiService.logs := ["[NAV] ok"; "[ENG] go"];
                GeminiService.error := false |}).
Proof.
  split.
  - intros pre mid post Hpre Hpost.
    pose proof (sanitize_wrapped pre mid post Hpre Hpost) as Hcut.
    pose proof (sanitize_wrapped "" mid "" I I) as Hbare.
    cbn [append] in Hbare.
    split; [exact Hcut|].
    rewrite on_response_sanitized; rewrite ?Hcut; cbn [append].
    + reflexivity.
    + destruct pre; discriminate.
    + exact Hbare.
    + discriminate.
  - intros. rewrite with_key by discriminate. reflexivity.
Qed.

Lemma response_cut_to_brackets_witness :
  lacks "[" "Sure! " /\ lacks "]" " thanks"
  /\ GeminiService.sanitize chatty_response
     = ("[" ++ (quoted "[NAV] ok" ++ ", " ++ quoted "[ENG] go") ++ "]")%string
  /\ GeminiService.on_response (Some chatty_response)
     = GeminiService.on_response
         (Some ("[" ++ (quoted "[NAV] ok" ++ ", " ++ quoted "[ENG] go") ++ "]")%string).
Proof.
  assert (H1 : lacks "[" "Sure! ") by (unfold lacks; simpl; auto 10).
  assert (H2 : lacks "]" " thanks") by (unfold lacks; simpl; auto 10).
  split; [exact H1|]. split; [exact H2|].
  exact (proj1 response_cut_to_brackets "Sure! "
           (quoted "[NAV] ok" ++ ", " ++ quoted "[ENG] go")%string " thanks" H1 H2).
Defined.

(** * C9 *)

(** C9. Without a credential (the key is the empty string) every call
    returns the same two diagnostic lines with the error flag set, sends
    no request, and leaves the seed corpus as it was. *)
Theorem no_key_no_request :
  forall (currentContext : list string) (count : Z) (env : GeminiService.Env)
    (SEED : list string),
    GeminiService.generateStatusBatch EmptyString currentContext count env SEED
    = (GeminiService.Returns
         {| GeminiService.logs :=
              ["[SYS] API KEY MISSING. PLEASE CONFIGURE SleighOS ENV.";
               "[ERR] MAGIC FLUX DISCONNECTED."];
            GeminiService.error := true |},
       [], SEED).
Proof. reflexivity. Qed.

(** * C10 *)

(** C10. With a credential, a response whose text is absent or empty
    makes the adapter return no line at all and a clear error flag. *)
Theorem empty_response_is_silent :
  forall (apiKey : string) (currentContext : list string) (count : Z)
    (picks picks' : list nat) (SEED : list string) (text : option string),
    apiKey <> EmptyString ->
    text = None \/ text = Some EmptyString ->
    fst (fst (GeminiService.generateStatusBatch apiKey currentContext count
                {| GeminiService.samplePicks := picks;
                   GeminiService.reply := GeminiService.Response text;
                   GeminiService.fallbackPicks := picks' |}
                SEED))
    = GeminiService.Returns
        {| GeminiService.logs := []; GeminiService.error := false |}.
Proof.
  intros apiKey ctx count picks picks' SEED text Hkey Htext.
  rewrite with_key by assumption.
  destruct Htext as [-> | ->]; reflexivity.
Qed.

Lemma empty_response_is_silent_witness :
  "key" <> EmptyString
  /\ (@None string = None \/ @None string = Some EmptyString)
  /\ fst (fst (GeminiService.generateStatusBatch "key" ["[NAV] ok"] 1
                 {| GeminiService.samplePicks := [];
                    GeminiService.reply := GeminiService.Response None;
                    GeminiService.fallbackPicks := [] |}
                 ["[ENG] go"]))
     = GeminiService.Returns
         {| GeminiService.logs := []; GeminiService.error := false |}.
Proof.
  assert (H1 : "key" <> EmptyString) by discriminate.
  assert (H2 : @None string = None \/ @None string = Some EmptyString)
    by (left; reflexivity).
  split; [exact H1|]. split; [exact H2|].
  exact (empty_response_is_silent "key" ["[NAV] ok"] 1 [] [] ["[ENG] go"] None
           H1 H2).
Defined.

(** * The order a random comparator leaves: a rearrangement *)

Local Open Scope list_scope.

Lemma nth_middle_split {A} (i : nat) (xs : list A) (d : A) :
  i < length xs -> xs = firstn i xs ++ nth i xs d :: skipn (S i) xs.
Proof.
  revert xs. induction i as [|i IH]; intros [|x xs] H; simpl in *; try lia.
  - reflexivity.
  - f_equal. apply IH. lia.
Qed.

Lemma remove_at_perm {A} (i : nat) (xs : list A) (d : A) :
  i < length xs -> Permutation xs (nth i xs d :: remove_at i xs).
Proof.
  intros H. rewrite (nth_middle_split i xs d H) at 1.
  symmetry. apply Permutation_middle.
Qed.

Lemma shuffle_upto_perm {A} (n : nat) :
  forall (picks : list nat) (xs : list A),
    length xs <= n -> Permutation xs (shuffle_upto n picks xs).
Proof.
  induction n as [|n IH]; intros picks [|x xs] Hlen;
    cbn [shuffle_upto length] in *; try lia; try apply perm_nil.
  set (i := hd 0 picks mod S (length xs)).
  assert (Hi : i < length (x :: xs))
    by (apply Nat.mod_upper_bound; discriminate).
  pose proof (remove_at_perm i (x :: xs) x Hi) as Hp.
  etransitivity; [exact Hp|]. apply perm_skip, IH.
  apply Permutation_length in Hp. cbn [length] in Hp. lia.
Qed.

Lemma shuffle_perm {A} (picks : list nat) (xs : list A) :
  Permutation xs (shuffle picks xs).
Proof. apply shuffle_upto_perm. lia. Qed.

(** Every rearrangement is the outcome of some picks: the model leaves
    the environment all the orders a sort could produce. *)
Lemma shuffle_complete {A} (target : list A) :
  forall xs : list A,
    Permutation xs target -> exists picks, shuffle picks xs = target.
Proof.
  induction target as [|y target IH]; intros xs Hp.
  - apply Permutation_sym, Permutation_nil in Hp. subst. now exists [].
  - assert (Hin : In y xs)
      by (eapply Permutation_in; [symmetry; exact Hp | now left]).
    destruct (In_nth xs y y Hin) as (i & Hi & Hnth).
    pose proof (nth_middle_split i xs y Hi) as Hsplit. rewrite Hnth in Hsplit.
    assert (Hrest : Permutation (remove_at i xs) target).
    { unfold remove_at. symmetry.
      eapply Permutation_cons_app_inv.
      rewrite <- Hsplit. now symmetry. }
    destruct (IH _ Hrest) as [picks Hpicks].
    exists (i :: picks). unfold shuffle.
    assert (Hlen : length xs = S (length (remove_at i xs))).
    { rewrite Hsplit at 1. unfold remove_at. rewrite !length_app. cbn [length]. lia. }
    rewrite Hlen. destruct xs as [|x xs]; [cbn in Hi; lia|].
    cbn [shuffle_upto hd tl].
    rewrite Nat.mod_small by exact Hi.
    rewrite (nth_indep _ x y Hi), Hnth. f_equal. exact Hpicks.
Qed.

Lemma length_slice_to {A} (n : Z) (xs : list A) :
  (0 <= n)%Z -> length (JS.slice_to n xs) = Nat.min (Z.to_nat n) (length xs).
Proof.
  intros H. unfold JS.slice_to.
  destruct (Z.ltb_spec n 0); [lia|]. apply length_firstn.
Qed.

Lemma slice_to_prefix {A} (n : Z) (xs : list A) :
  exists rest, xs = JS.slice_to n xs ++ rest.
Proof.
  unfold JS.slice_to. destruct (n <? 0)%Z;
    eexists; symmetry; apply firstn_skipn.
Qed.

(** * C5 *)

(** The fallback never has more lines than the corpus: asked for one
    more, it returns the whole corpus and no more. *)
Lemma fallback_capped (errorMessage : string) (picks : list nat)
  (SEED : list string) :
  JS.includes errorMessage "429" = true ->
  length (GeminiService.logs
            (GeminiService.on_error errorMessage
               (Z.of_nat (S (length SEED))) picks SEED))
  = length SEED.
Proof.
  intros H. unfold GeminiService.on_error. rewrite H. cbn [orb GeminiService.logs].
  rewrite length_slice_to by lia.
  rewrite <- (Permutation_length (shuffle_perm picks SEED)). lia.
Qed.




(** * The bounded display log *)

Lemma length_slice_last {A} (n : nat) (xs : list A) :
  length (JS.slice_last n xs) = Nat.min n (length xs).
Proof. unfold JS.slice_last. rewrite length_skipn. lia. Qed.

Lemma slice_last_suffix {A} (n : nat) (xs : list A) :
  xs = firstn (length xs - n) xs ++ JS.slice_last n xs.
Proof. unfold JS.slice_last. symmetry. apply firstn_skipn. Qed.

(** Cutting twice is cutting once: what was evicted before an append
    would be evicted after it as well. *)
Lemma slice_last_app {A} (n : nat) (xs ys : list A) :
  JS.slice_last n (JS.slice_last n xs ++ ys) = JS.slice_last n (xs ++ ys).
Proof.
  unfold JS.slice_last at 1 3.
  rewrite (slice_last_suffix n xs) at 3 4.
  rewrite !length_app, length_slice_last, length_firstn.
  rewrite <- app_assoc.
  rewrite (skipn_app _ (firstn (length xs - n) xs)).
  rewrite length_firstn.
  replace (skipn _ (firstn (length xs - n) xs)) with (@nil A).
  - cbn [app]. f_equal. lia.
  - symmetry. apply skipn_all2. rewrite length_firstn. lia.
Qed.

Lemma appendLog_all (entries : list LogMessage) :
  forall start : list LogMessage,
    entries <> [] ->
    fold_left App.appendLog entries start
    = JS.slice_last MAX_LOGS (start ++ entries).
Proof.
  induction entries as [|e entries IH]; intros start Hne; [now elim Hne|].
  cbn [fold_left]. destruct entries as [|e' entries].
  - reflexivity.
  - rewrite IH by discriminate. unfold App.appendLog.
    rewrite slice_last_app, <- app_assoc. reflexivity.
Qed.

(** * Runs of the scheduler *)

Lemma run_invariant (P : App.State -> Prop) (apiKey : string) :
  (forall ev s s', App.step apiKey ev s = Some s' -> P s -> P s') ->
  forall evs s s', App.run apiKey evs s = Some s' -> P s -> P s'.
Proof.
  intros Hstep evs. induction evs as [|ev evs IH]; intros s s' Hrun Hs;
    cbn [App.run] in Hrun.
  - now inversion Hrun; subst.
  - destruct (App.step apiKey ev s) as [s1|] eqn:E; [|discriminate].
    eapply IH; eauto.
Qed.

(** Every step is built from [fetchMoreLogs], [processNextMessage],
    [resume] and updates of single fields: a property kept by these is
    kept by every step. *)
Lemma step_preserves (P : App.State -> Prop) (apiKey : string) :
  (forall s, P s -> P (App.sync_refs s)) ->
  (forall v s, P s -> P (App.set_timer v s)) ->
  (forall v s, P s -> P (App.setIsRunning v s)) ->
  (forall a s, P s -> P (App.set_awaiting a s)) ->
  (forall b s, P s -> P (App.resume b s)) ->
  (forall e s, P s -> P (App.processNextMessage apiKey e s)) ->
  forall ev s s', App.step apiKey ev s = Some s' -> P s -> P s'.
Proof.
  intros Hsync Htimer Hrun Hawait Hresume Htick ev s s' Hstep Hs.
  destruct ev as [|e|i r picks|e]; cbn [App.step] in Hstep.
  - inversion Hstep; subst. auto.
  - destruct (App.timer s); inversion Hstep; subst. auto.
  - destruct (nth_error (App.awaiting s) i) as [[b|q]|]; [| |discriminate].
    + inversion Hstep; subst. auto.
    + destruct (GeminiService.settle _ r picks _) as [b| |];
        inversion Hstep; subst. auto.
  - inversion Hstep; subst.
    match goal with |- P (if ?c then _ else _) => destruct c end; auto.
Qed.

(** ** The display log along a run *)

Lemma logs_fetchMoreLogs (apiKey : string) (e : App.FetchEnv) (s : App.State) :
  App.logs (App.fetchMoreLogs apiKey e s) = App.logs s.
Proof.
  unfold App.fetchMoreLogs. destruct (App.isLoadingRef s); [reflexivity|].
  cbn. destruct (App.useGeminiNext s); reflexivity.
Qed.

Lemma logs_processNextMessage (apiKey : string) (e : App.TickEnv) (s : App.State) :
  App.logs (App.processNextMessage apiKey e s) = App.logs s
  \/ exists nextRaw newBuffer,
       App.bufferRef s = nextRaw :: newBuffer
       /\ App.isRunning s = true
       /\ App.logs (App.processNextMessage apiKey e s)
          = App.appendLog (App.logs s)
              (App.newLog (App.draw e) (App.now e) nextRaw).
Proof.
  unfold App.processNextMessage.
  destruct (App.isRunning s) eqn:Hrun; cbn [negb]; [|now left].
  destruct (App.bufferRef s) as [|nextRaw newBuffer] eqn:Hbuf.
  - left.
    case_if;
      cbn [App.set_timer App.logs]; rewrite ?logs_fetchMoreLogs; reflexivity.
  - right. exists nextRaw, newBuffer. split; [reflexivity|]. split; [reflexivity|].
    case_if;
      cbn [App.set_timer App.logs]; rewrite ?logs_fetchMoreLogs; reflexivity.
Qed.

Lemma length_appendLog (prev : list LogMessage) (newLog : LogMessage) :
  length (App.appendLog prev newLog) <= MAX_LOGS.
Proof. unfold App.appendLog. rewrite length_slice_last. lia. Qed.

Lemma logs_bounded_step (apiKey : string) (ev : App.Event) (s s' : App.State) :
  App.step apiKey ev s = Some s' ->
  length (App.logs s) <= MAX_LOGS -> length (App.logs s') <= MAX_LOGS.
Proof.
  apply (step_preserves (fun s => length (App.logs s) <= MAX_LOGS));
    try (intros; assumption).
  intros e s0 H0.
  destruct (logs_processNextMessage apiKey e s0) as [-> | (x & r & _ & _ & ->)];
    [assumption | apply length_appendLog].
Qed.

Lemma logs_mount (apiKey : string) (me : App.MountEnv) (seeds : list string) :
  length (App.logs (App.mount apiKey me seeds)) = 3.
Proof.
  unfold App.mount.
  destruct (logs_processNextMessage apiKey (App.firstTick me)
              (App.fetchMoreLogs apiKey (App.firstFetch me)
                 (App.setLogs (fun _ => App.initialLogs (App.bootTimes me))
                    (App.sync_refs (App.initial seeds)))))
    as [-> | (x & r & Hbuf & _ & _)].
  - rewrite logs_fetchMoreLogs. cbn [App.setLogs App.logs].
    destruct (App.bootTimes me) as [[t1 t2] t3]. reflexivity.
  - exfalso. revert Hbuf. unfold App.fetchMoreLogs.
    cbn. destruct (String.eqb apiKey ""); discriminate.
Qed.

(** * C2 *)

(** C2. The capacity is 50.  An append leaves at most 50 entries,
    whatever was there before, and what it leaves is the end of the old
    log with the new entry: only entries at the head go, and the rest
    keep their order.  After any number of appends the log is the last 50
    of all that was ever in it or appended to it, in that order.  In
    every run of the component the display log has at most 50 entries. *)
Theorem display_log_bounded :
  MAX_LOGS = 50
  /\ (forall (prev : list LogMessage) (newLog : LogMessage),
         length (App.appendLog prev newLog) <= MAX_LOGS
         /\ exists evicted,
              prev ++ [newLog] = evicted ++ App.appendLog prev newLog
              /\ length evicted = length prev + 1 - MAX_LOGS)
  /\ (forall (start entries : list LogMessage),
         entries <> [] ->
         fold_left App.appendLog entries start
         = JS.slice_last MAX_LOGS (start ++ entries))
  /\ (forall (apiKey : string) (me : App.MountEnv) (seeds : list string)
        (evs : list App.Event) (s : App.State),
         App.run apiKey evs (App.mount apiKey me seeds) = Some s ->
         length (App.logs s) <= MAX_LOGS).
Proof.
  split; [reflexivity|]. split; [|split].
  - intros prev newLog. split; [apply length_appendLog|].
    exists (firstn (length (prev ++ [newLog]) - MAX_LOGS) (prev ++ [newLog])).
    split; [apply slice_last_suffix|].
    rewrite length_firstn, length_app. cbn [length]. lia.
  - intros start entries. apply appendLog_all.
  - intros apiKey me seeds evs s Hrun.
    eapply (run_invariant (fun s => length (App.logs s) <= MAX_LOGS));
      [apply logs_bounded_step | exact Hrun |].
    rewrite logs_mount. unfold MAX_LOGS. lia.
Qed.

Lemma display_log_bounded_witness :
  exists s : App.State,
    App.run "key" sample_trace (App.mount "key" sample_mount sample_seeds) = Some s
    /\ length (App.logs s) = 5
    /\ length (App.logs s) <= MAX_LOGS.
Proof.
  pose proof (proj2 (proj2 (proj2 display_log_bounded)) "key" sample_mount
                sample_seeds sample_trace) as H.
  eexists. split; [lazy; reflexivity|]. split; [reflexivity|].
  apply H. lazy. reflexivity.
Defined.

(** ** The alternation flag along a run *)

Lemma in_step_toggle (s : App.State) : in_step s -> in_step (App.toggle s).
Proof.
  unfold in_step. cbn [App.toggle App.useGeminiNext App.completed].
  intros [Hflag Hlog]. rewrite length_app. cbn [length].
  rewrite Nat.add_1_r, seq_S, map_app. cbn [map Nat.add].
  rewrite <- Hlog, Hflag. split; [|f_equal; f_equal].
  all: now rewrite Nat.even_succ, <- Nat.negb_even.
Qed.

Lemma in_step_resume (b : GeminiService.Batch) (s : App.State) :
  in_step s -> in_step (App.resume b s).
Proof.
  intros H.
  exact (in_step_toggle
           (App.setBuffer (fun prev => prev ++ GeminiService.logs b)
              (App.setAiError (GeminiService.error b) s)) H).
Qed.

Lemma in_step_fetchMoreLogs (apiKey : string) (e : App.FetchEnv) (s : App.State) :
  in_step s -> in_step (App.fetchMoreLogs apiKey e s).
Proof.
  intros H. unfold App.fetchMoreLogs.
  destruct (App.isLoadingRef s); [exact H|].
  cbn [App.setIsLoading App.useGeminiNext].
  destruct (App.useGeminiNext s) eqn:E; [exact H|].
  exact (in_step_toggle
           (App.setBuffer
              (fun prev => prev ++ [App.randomMsg (App.seedDraw e) (App.SEED_MESSAGES s)])
              (App.setIsLoading true s)) H).
Qed.

Lemma in_step_processNextMessage (apiKey : string) (e : App.TickEnv)
  (s : App.State) :
  in_step s -> in_step (App.processNextMessage apiKey e s).
Proof.
  intros H. unfold App.processNextMessage.
  destruct (negb (App.isRunning s)); [exact H|].
  destruct (App.bufferRef s) as [|nextRaw newBuffer];
    case_if.
  - apply (in_step_fetchMoreLogs apiKey (App.onLow e)).
    apply (in_step_fetchMoreLogs apiKey (App.onEmpty e)), H.
  - apply (in_step_fetchMoreLogs apiKey (App.onEmpty e)), H.
  - apply (in_step_fetchMoreLogs apiKey (App.onLow e)
             (App.setLogs _ (App.setBuffer _ s))), H.
  - exact H.
Qed.

Create HintDb flag discriminated.
#[local] Hint Resolve in_step_toggle in_step_resume in_step_fetchMoreLogs
  in_step_processNextMessage : flag.

Lemma in_step_step (apiKey : string) (ev : App.Event) (s s' : App.State) :
  App.step apiKey ev s = Some s' -> in_step s -> in_step s'.
Proof.
  apply (step_preserves in_step); auto with flag.
Qed.

Lemma in_step_mount (apiKey : string) (me : App.MountEnv) (seeds : list string) :
  in_step (App.mount apiKey me seeds).
Proof.
  unfold App.mount.
  apply in_step_processNextMessage, in_step_fetchMoreLogs. split; reflexivity.
Qed.

Lemma even_flip (n : nat) : Nat.even n = negb (Nat.even (S n)).
Proof. now rewrite Nat.even_succ, Nat.negb_odd. Qed.

Lemma in_step_alternates (s : App.State) :
  in_step s -> alternates (App.completed s).
Proof.
  intros [_ Hlog] i a b Ha Hb. rewrite Hlog in Ha, Hb.
  rewrite nth_error_map, nth_error_seq in Ha, Hb.
  destruct (Nat.ltb (S i) (length (App.completed s))); [|discriminate].
  destruct (Nat.ltb i (length (App.completed s))); [|discriminate].
  cbn [option_map Nat.add] in Ha, Hb. inversion Ha; inversion Hb; subst.
  exact (even_flip i).
Qed.

(** * C4 *)



(** * C1 *)

(** [fetchMoreLogs] never writes the ref its guard reads: only a render
    does (the effect of line 66). *)
Lemma guard_ref_untouched (apiKey : string) (e : App.FetchEnv) (s : App.State) :
  App.isLoadingRef (App.fetchMoreLogs apiKey e s) = App.isLoadingRef s.
Proof.
  unfold App.fetchMoreLogs. destruct (App.isLoadingRef s) eqn:E; [exact E|].
  cbn. destruct (App.useGeminiNext s); exact E.
Qed.

(** Once a render has brought the ref up to date, the guard holds. *)
Lemma guard_blocks (apiKey : string) (e : App.FetchEnv) (s : App.State) :
  App.isLoadingRef s = true -> App.fetchMoreLogs apiKey e s = s.
Proof. intros H. unfold App.fetchMoreLogs. now rewrite H. Qed.

(** A tick that finds the buffer empty, the flag on the live source and
    the ref of the guard still false starts two fetch cycles: the guard
    of the second call, and the test of line 160 before it, read a ref
    that the first call did not write. *)
Lemma empty_tick_starts_two (apiKey : string) (e : App.TickEnv) (s : App.State) :
  App.isRunning s = true -> App.bufferRef s = [] ->
  App.isLoadingRef s = false -> App.useGeminiNext s = true ->
  App.in_flight (App.processNextMessage apiKey e s) = App.in_flight s + 2.
Proof.
  intros Hrun Hbuf Hguard Hflag.
  unfold App.processNextMessage, App.fetchMoreLogs, App.in_flight.
  rewrite Hrun, Hbuf. cbn [negb]. rewrite Hguard.
  cbn [App.setIsLoading App.useGeminiNext]. rewrite Hflag.
  cbn. rewrite Hguard, Hflag. cbn.
  rewrite !length_app. cbn [length]. lia.
Qed.

(** C1 does not hold of the code: when the component
    mounts, three fetch cycles are in flight at once, with or without a
    credential; with one, that is three requests on the wire.  The state
    says loading, the ref that the guard reads still says not. *)
Theorem three_fetches_at_mount :
  forall (apiKey : string) (c : ascii) (k : string) (me : App.MountEnv)
    (seeds : list string),
    App.in_flight (App.mount apiKey me seeds) = 3
    /\ length (App.sent (App.mount (String c k) me seeds)) = 3
    /\ App.isLoading (App.mount apiKey me seeds) = true
    /\ App.isLoadingRef (App.mount apiKey me seeds) = false.
Proof. intros. repeat split. Qed.

(** * C3 *)

Lemma length_take (n : nat) (s : string) : String.length (JS.take n s) <= n.
Proof.
  revert s. induction n as [|n IH]; intros [|c s]; cbn; try lia.
  specialize (IH s). lia.
Qed.

Lemma tick_appends (apiKey : string) (e : App.TickEnv) (s : App.State)
  (nextRaw : string) (newBuffer : list string) :
  App.isRunning s = true -> App.bufferRef s = nextRaw :: newBuffer ->
  App.logs (App.processNextMessage apiKey e s)
  = App.appendLog (App.logs s) (App.newLog (App.draw e) (App.now e) nextRaw).
Proof.
  intros Hrun Hbuf. unfold App.processNextMessage.
  rewrite Hrun, Hbuf. cbn [negb].
  case_if;
    cbn [App.set_timer App.logs]; rewrite ?logs_fetchMoreLogs; reflexivity.
Qed.

(** C3 does not hold as stated: in the sample run the two entries
    that the two ticks append are different entries with the same id. *)
Lemma same_draw_same_id :
  exists (s : App.State) (e1 e2 : LogMessage),
    App.run "key" sample_trace (App.mount "key" sample_mount sample_seeds)
    = Some s
    /\ App.logs s = App.initialLogs (App.bootTimes sample_mount) ++ [e1; e2]
    /\ e1 <> e2
    /\ id e1 = id e2.
Proof.
  do 3 eexists. split; [lazy; reflexivity|].
  split; [reflexivity|]. split; [discriminate | reflexivity].
Qed.

(** C3, amended. The entry a tick appends has as id the characters, nine
    at most, that follow the first two in the base-36 text of the random
    number drawn in that tick; the ids of two such entries are equal
    exactly when these characters of the two draws are. *)
Theorem id_cut_from_draw :
  (forall (apiKey : string) (e : App.TickEnv) (s : App.State)
     (nextRaw : string) (newBuffer : list string),
      App.timer s = true -> App.isRunning s = true ->
      App.bufferRef s = nextRaw :: newBuffer ->
      exists (s' : App.State) (entry : LogMessage),
        App.step apiKey (App.Tick e) s = Some s'
        /\ App.logs s' = App.appendLog (App.logs s) entry
        /\ id entry = JS.substr (App.draw e) 2 9
        /\ String.length (id entry) <= 9)
  /\ (forall (draw1 draw2 now1 now2 raw1 raw2 : string),
         id (App.newLog draw1 now1 raw1) = id (App.newLog draw2 now2 raw2)
         <-> JS.substr draw1 2 9 = JS.substr draw2 2 9).
Proof.
  split.
  - intros apiKey e s nextRaw newBuffer Htimer Hrun Hbuf.
    exists (App.processNextMessage apiKey e (App.set_timer false s)),
      (App.newLog (App.draw e) (App.now e) nextRaw).
    split; [cbn [App.step]; now rewrite Htimer|].
    split; [now rewrite (tick_appends apiKey e _ nextRaw newBuffer)|].
    split; [reflexivity | apply length_take].
  - intros. reflexivity.
Qed.

Lemma id_cut_from_draw_witness :
  exists s : App.State,
    sample_before_tick = Some s
    /\ App.timer s = true /\ App.isRunning s = true
    /\ App.bufferRef s = ["[NAV] ok"; "[ENG] go"]
    /\ exists (s' : App.State) (entry : LogMessage),
         App.step "key" (App.Tick (sample_tick "12:00:02.500")) s = Some s'
         /\ App.logs s' = App.appendLog (App.logs s) entry
         /\ id entry = JS.substr "0.i" 2 9
         /\ String.length (id entry) <= 9.
Proof.
  eexists. split; [lazy; reflexivity|].
  split; [reflexivity|]. split; [reflexivity|]. split; [reflexivity|].
  apply (proj1 id_cut_from_draw "key" (sample_tick "12:00:02.500") _
           "[NAV] ok" ["[ENG] go"]); reflexivity.
Defined.

(** * Further properties *)

(** * Further properties of the parser *)

Local Open Scope string_scope.

(** Every line is either without a tag, and kept whole, or a tag and
    what follows it. *)
Lemma parse_cases (raw : string) :
  (~ tagged raw
   /\ parseLogString raw
      = {| p_system := "UNK"; p_message := raw; p_level := INFO |})
  \/ (exists tag rest,
         raw = "[" ++ tag ++ "]" ++ rest
         /\ tag <> EmptyString /\ all_chars Regex.tag_char tag
         /\ parseLogString raw
            = {| p_system := tag; p_message := message_of rest;
                 p_level := infer_level tag (message_of rest) |}).
Proof.
  destruct (split_tag raw) as [caps|] eqn:E.
  - right. destruct (split_tag_some raw caps E) as (tag & rest & -> & Hne & Hall).
    exists tag, rest. repeat split; try assumption. now apply parse_tagged.
  - left. assert (Hno : ~ tagged raw).
    { intros (tag & rest & -> & Hne & Hall).
      rewrite split_tag_tagged in E by assumption. discriminate. }
    split; [exact Hno|].
    unfold parseLogString. now rewrite matches_split_tag, E.
Qed.

Lemma crit_words_includes (msg : string) :
  crit_words msg
  <-> JS.includes (JS.toLowerCase msg) "critical"
      || JS.includes (JS.toLowerCase msg) "fail"
      || JS.includes (JS.toLowerCase msg) "error" = true.
Proof.
  unfold crit_words, mentions. rewrite !orb_true_iff, !includes_occurs. tauto.
Qed.

Lemma warn_words_includes (msg : string) :
  warn_words msg
  <-> JS.includes (JS.toLowerCase msg) "warning"
      || JS.includes (JS.toLowerCase msg) "detect" = true.
Proof.
  unfold warn_words, mentions. rewrite !orb_true_iff, !includes_occurs. tauto.
Qed.

Lemma infer_level_cases (system msg : string) :
  (infer_level system msg = CRIT <-> crit_words msg)
  /\ (infer_level system msg = WARN <-> ~ crit_words msg /\ warn_words msg)
  /\ (infer_level system msg = SYS
      <-> ~ crit_words msg /\ ~ warn_words msg /\ system = "SYS")
  /\ (infer_level system msg = INFO
      <-> ~ crit_words msg /\ ~ warn_words msg /\ system <> "SYS").
Proof.
  rewrite crit_words_includes, warn_words_includes. unfold infer_level.
  destruct (JS.includes (JS.toLowerCase msg) "critical"
            || JS.includes (JS.toLowerCase msg) "fail"
            || JS.includes (JS.toLowerCase msg) "error");
    [|destruct (JS.includes (JS.toLowerCase msg) "warning"
               || JS.includes (JS.toLowerCase msg) "detect");
      [|destruct (String.eqb_spec system "SYS")]];
    repeat split; intros; try discriminate; try tauto;
    try (intuition congruence).
Qed.

(** X1. The level of a line, case by case: CRIT, WARN and SYS are given to
    tagged lines only, by the words of the message first and the tag
    last; every other line is INFO. *)
Theorem level_of_line :
  forall raw : string,
    (p_level (parseLogString raw) = CRIT
     <-> tagged raw /\ crit_words (p_message (parseLogString raw)))
    /\ (p_level (parseLogString raw) = WARN
        <-> tagged raw
            /\ ~ crit_words (p_message (parseLogString raw))
            /\ warn_words (p_message (parseLogString raw)))
    /\ (p_level (parseLogString raw) = SYS
        <-> tagged raw
            /\ ~ crit_words (p_message (parseLogString raw))
            /\ ~ warn_words (p_message (parseLogString raw))
            /\ p_system (parseLogString raw) = "SYS")
    /\ (p_level (parseLogString raw) = INFO
        <-> ~ tagged raw
            \/ (~ crit_words (p_message (parseLogString raw))
                /\ ~ warn_words (p_message (parseLogString raw))
                /\ p_system (parseLogString raw) <> "SYS")).
Proof.
  intros raw.
  destruct (parse_cases raw) as [[Hno ->] | (tag & rest & Hraw & Hne & Hall & ->)];
    cbn [p_level p_message p_system].
  - repeat split; intros; try discriminate; try tauto.
  - assert (Ht : tagged raw) by (exists tag, rest; auto).
    destruct (infer_level_cases tag (message_of rest)) as (H1 & H2 & H3 & H4).
    rewrite H1, H2, H3, H4. tauto.
Qed.

Lemma take_while_id (p : ascii -> bool) (s : string) :
  all_chars p s -> take_while p s = s.
Proof.
  induction s as [|c s IH]; cbn; [reflexivity|].
  intros [Hc Hs]. now rewrite Hc, IH.
Qed.

Lemma drop_while_twice (p : ascii -> bool) (s : string) :
  drop_while p (drop_while p s) = drop_while p s.
Proof.
  induction s as [|c s IH]; cbn; [reflexivity|].
  destruct (p c) eqn:E; [exact IH|]. cbn. now rewrite E.
Qed.

(** What is kept of a line starts where the white space ends. *)
Lemma message_of_trimmed (rest : string) :
  drop_while Regex.white_space (message_of rest) = message_of rest.
Proof.
  unfold message_of.
  pose proof (drop_while_twice Regex.white_space rest) as H.
  destruct (drop_while Regex.white_space rest) as [|c t]; [reflexivity|].
  cbn [drop_while] in H. cbn [take_while].
  destruct (Regex.dot c); [|reflexivity].
  cbn [drop_while]. destruct (Regex.white_space c); [|reflexivity].
  exfalso. apply (f_equal String.length) in H.
  pose proof (length_drop_while Regex.white_space t). cbn in H. lia.
Qed.

Lemma message_of_one_line (rest : string) :
  all_chars Regex.dot (message_of rest).
Proof. apply take_while_all. Qed.

(** X2. What the parser returns is well formed: the system is never empty
    and has only the characters of a tag; the message of a tagged line
    is a single line that does not start with white space. *)
Theorem parsed_line_well_formed :
  forall raw : string,
    p_system (parseLogString raw) <> EmptyString
    /\ all_chars Regex.tag_char (p_system (parseLogString raw))
    /\ (tagged raw ->
        all_chars Regex.dot (p_message (parseLogString raw))
        /\ drop_while Regex.white_space (p_message (parseLogString raw))
           = p_message (parseLogString raw)).
Proof.
  intros raw.
  destruct (parse_cases raw) as [[Hno ->] | (tag & rest & Hraw & Hne & Hall & ->)];
    cbn [p_system p_message].
  - split; [discriminate|]. split; [cbn; auto|]. intros H. now elim Hno.
  - split; [exact Hne|]. split; [exact Hall|]. intros _.
    split; [apply message_of_one_line | apply message_of_trimmed].
Qed.

Lemma parsed_line_well_formed_witness :
  tagged "[NAV]   Waypoint acquired."
  /\ p_system (parseLogString "[NAV]   Waypoint acquired.") = "NAV"
  /\ all_chars Regex.dot (p_message (parseLogString "[NAV]   Waypoint acquired."))
  /\ drop_while Regex.white_space
       (p_message (parseLogString "[NAV]   Waypoint acquired."))
     = p_message (parseLogString "[NAV]   Waypoint acquired.").
Proof.
  assert (H : tagged "[NAV]   Waypoint acquired.").
  { exists "NAV", "   Waypoint acquired.".
    split; [reflexivity|]. split; [discriminate | cbn; auto]. }
  split; [exact H|]. split; [reflexivity|].
  exact (proj2 (proj2 (parsed_line_well_formed "[NAV]   Waypoint acquired.")) H).
Defined.

(** The context line of a parsed entry parses again into the same
    parts. *)
Lemma context_line_parses (tag msg : string) :
  tag <> EmptyString -> all_chars Regex.tag_char tag ->
  all_chars Regex.dot msg -> drop_while Regex.white_space msg = msg ->
  parseLogString ("[" ++ tag ++ "] " ++ msg)
  = {| p_system := tag; p_message := msg; p_level := infer_level tag msg |}.
Proof.
  intros Hne Hall Hline Htrim.
  change ("[" ++ tag ++ "] " ++ msg) with ("[" ++ tag ++ "]" ++ String " " msg).
  rewrite parse_tagged by assumption.
  assert (Hm : message_of (String " " msg) = msg).
  { unfold message_of. cbn [drop_while]. cbn [Regex.white_space].
    change (drop_while Regex.white_space (String " " msg))
      with (drop_while Regex.white_space msg).
    rewrite Htrim. now apply take_while_id. }
  now rewrite Hm.
Qed.

(** X3. A tagged line survives the trip through the display log and back:
    the line of context that the scheduler hands to the adapter for an
    entry parses to what the entry shows. *)
Theorem context_line_round_trip :
  forall (draw now raw : string),
    tagged raw ->
    parseLogString (App.context_line (App.newLog draw now raw))
    = parseLogString raw.
Proof.
  intros draw now raw Ht.
  destruct (parse_cases raw) as [[Hno _] | (tag & rest & Hraw & Hne & Hall & E)];
    [now elim Hno|].
  unfold App.context_line, App.newLog. cbn [system message]. rewrite E.
  cbn [p_system p_message].
  apply context_line_parses; auto using message_of_one_line, message_of_trimmed.
Qed.

Lemma context_line_round_trip_witness :
  tagged "[ENG]  Thrust nominal."
  /\ parseLogString
       (App.context_line (App.newLog "0.i" "12:00:00.000" "[ENG]  Thrust nominal."))
     = parseLogString "[ENG]  Thrust nominal.".
Proof.
  assert (H : tagged "[ENG]  Thrust nominal.").
  { exists "ENG", "  Thrust nominal.".
    split; [reflexivity|]. split; [discriminate | cbn; auto]. }
  split; [exact H|].
  exact (context_line_round_trip "0.i" "12:00:00.000" "[ENG]  Thrust nominal." H).
Defined.

(** * Further properties of the display log *)

Local Open Scope list_scope.

(** X4. The entry just appended is the last one and is never the one that
    goes; below capacity nothing goes at all, and at capacity the log
    stays full, moved up by one. *)
Theorem newest_entry_kept :
  forall (prev : list LogMessage) (newLog : LogMessage),
    (forall d, last (App.appendLog prev newLog) d = newLog)
    /\ (length prev < MAX_LOGS -> App.appendLog prev newLog = prev ++ [newLog])
    /\ (MAX_LOGS <= length prev ->
        length (App.appendLog prev newLog) = MAX_LOGS
        /\ App.appendLog prev newLog
           = skipn (length prev + 1 - MAX_LOGS) prev ++ [newLog]).
Proof.
  intros prev newLog. unfold App.appendLog, JS.slice_last.
  rewrite length_app. cbn [length]. unfold MAX_LOGS.
  split; [|split].
  - intros d. rewrite skipn_app.
    replace (length prev + 1 - 50 - length prev) with 0 by lia.
    cbn [skipn]. apply last_last.
  - intros H. replace (length prev + 1 - 50) with 0 by lia. reflexivity.
  - intros H. split.
    + rewrite length_skipn, length_app. cbn [length]. lia.
    + rewrite skipn_app.
      replace (length prev + 1 - 50 - length prev) with 0 by lia. reflexivity.
Qed.

Lemma newest_entry_kept_witness :
  length (App.initialLogs ("a", "b", "c")) < MAX_LOGS
  /\ App.appendLog (App.initialLogs ("a", "b", "c"))
       (App.newLog "0.i" "d" "[NAV] ok")
     = App.initialLogs ("a", "b", "c") ++ [App.newLog "0.i" "d" "[NAV] ok"].
Proof.
  assert (H : length (App.initialLogs ("a", "b", "c")) < MAX_LOGS)
    by (unfold MAX_LOGS; cbn; lia).
  split; [exact H|].
  exact (proj1 (proj2 (newest_entry_kept (App.initialLogs ("a", "b", "c"))
                         (App.newLog "0.i" "d" "[NAV] ok"))) H).
Defined.

(** * The clock helper *)

Local Open Scope string_scope.

Lemma split_no_separator (c : ascii) (s : string) :
  lacks c s -> JSText.split s c = [s].
Proof.
  unfold lacks. induction s as [|d s IH]; cbn [JSText.split all_chars];
    [reflexivity|].
  intros [Hd Hs]. apply negb_true_iff in Hd. now rewrite Hd, IH.
Qed.

Lemma split_first_piece (c : ascii) (pre rest : string) :
  lacks c pre ->
  JSText.split (pre ++ String c rest) c = pre :: JSText.split rest c.
Proof.
  unfold lacks. induction pre as [|d pre IH];
    cbn [append JSText.split all_chars].
  - intros _. now rewrite Ascii.eqb_refl.
  - intros [Hd Hpre]. apply negb_true_iff in Hd. now rewrite Hd, IH.
Qed.

(** X5. Of an ISO date-and-time, the timestamp is the part behind the T, cut
    to twelve characters: the time of day to the millisecond, without the
    date and the zone letter.  A text without a T has no timestamp (the
    source would raise); a timestamp never has more than twelve
    characters. *)
Theorem timestamp_is_time_of_day :
  (forall date tail : string,
      lacks "T" date -> lacks "T" tail ->
      getTimestamp (date ++ "T" ++ tail) = Some (JS.take 12 tail))
  /\ (forall iso : string, lacks "T" iso -> getTimestamp iso = None)
  /\ (forall iso t : string,
         getTimestamp iso = Some t -> String.length t <= 12)
  /\ getTimestamp "2025-12-24T23:59:58.123Z" = Some "23:59:58.123".
Proof.
  split; [|split; [|split; [|reflexivity]]].
  - intros date tail Hd Ht. unfold getTimestamp. cbn [append].
    rewrite (split_first_piece "T" date tail Hd), (split_no_separator "T" tail Ht).
    reflexivity.
  - intros iso H. unfold getTimestamp. now rewrite (split_no_separator "T" iso H).
  - intros iso t. unfold getTimestamp.
    destruct (nth_error (JSText.split iso "T") 1) as [piece|]; [|discriminate].
    intros H. replace t with (JS.take 12 piece) by congruence.
    apply length_take.
Qed.

Lemma timestamp_is_time_of_day_witness :
  lacks "T" "2025-12-24" /\ lacks "T" "23:59:58.123Z"
  /\ getTimestamp ("2025-12-24" ++ "T" ++ "23:59:58.123Z")
     = Some (JS.take 12 "23:59:58.123Z").
Proof.
  assert (H1 : lacks "T" "2025-12-24") by (unfold lacks; cbn; auto 20).
  assert (H2 : lacks "T" "23:59:58.123Z") by (unfold lacks; cbn; auto 20).
  split; [exact H1|]. split; [exact H2|].
  exact (proj1 timestamp_is_time_of_day "2025-12-24" "23:59:58.123Z" H1 H2).
Defined.

(** * Further properties of the adapter *)

Local Open Scope string_scope.

Lemma lacks_app (c : ascii) (a b : string) :
  lacks c (a ++ b) <-> lacks c a /\ lacks c b.
Proof.
  unfold lacks. induction a as [|d a IH]; cbn [append all_chars]; [tauto|].
  rewrite IH. tauto.
Qed.

Lemma indexOf_absent (c : ascii) (s : string) :
  lacks c s -> JS.indexOf s c = (-1)%Z.
Proof.
  unfold lacks. induction s as [|d s IH]; cbn [JS.indexOf all_chars]; [reflexivity|].
  intros [Hd Hs]. apply negb_true_iff in Hd. now rewrite Hd, (IH Hs).
Qed.

(** A character is absent, or has a first occurrence. *)
Lemma first_occurrence (c : ascii) (s : string) :
  lacks c s \/ exists pre rest, s = pre ++ String c rest /\ lacks c pre.
Proof.
  induction s as [|d s IH]; [left; exact I|].
  destruct (Ascii.eqb_spec d c) as [->|Hd].
  - right. exists "", s. split; [reflexivity | exact I].
  - assert (Hn : negb (Ascii.eqb d c) = true)
      by (apply negb_true_iff; now apply Ascii.eqb_neq).
    destruct IH as [H | (pre & rest & -> & Hpre)].
    + left. split; assumption.
    + right. exists (String d pre), rest. split; [reflexivity | split; assumption].
Qed.

(** A character is absent, or has a last occurrence. *)
Lemma last_occurrence (c : ascii) (s : string) :
  lacks c s \/ exists a post, s = a ++ String c post /\ lacks c post.
Proof.
  induction s as [|d s IH]; [left; exact I|].
  destruct IH as [H | (a & post & -> & Hpost)].
  - destruct (Ascii.eqb_spec d c) as [->|Hd].
    + right. exists "", s. split; [reflexivity | exact H].
    + left. split; [|exact H]. apply negb_true_iff. now apply Ascii.eqb_neq.
  - right. exists (String d a), post. split; [reflexivity | exact Hpost].
Qed.

(** Two ways to cut one string: the shorter head is a head of the
    longer. *)
Lemma append_cut (u v w z : string) :
  u ++ v = w ++ z -> String.length u <= String.length w ->
  exists k, w = u ++ k /\ v = k ++ z.
Proof.
  revert w. induction u as [|c u IH]; intros w H Hlen; cbn [append] in *.
  - exists w. split; [reflexivity | exact H].
  - destruct w as [|d w]; cbn [String.length append] in *; [lia|].
    injection H as -> H. destruct (IH w H ltac:(lia)) as (k & -> & ->).
    exists k. split; reflexivity.
Qed.

Lemma substring_sym (s : string) (a b : Z) :
  JS.substring s a b = JS.substring s b a.
Proof.
  unfold JS.substring. now rewrite Nat.min_comm, Nat.max_comm.
Qed.

Lemma sanitize_no_brackets (s : string) :
  lacks "[" s \/ lacks "]" s -> GeminiService.sanitize s = s.
Proof.
  intros [H | H]; unfold GeminiService.sanitize.
  - now rewrite (indexOf_absent _ _ H).
  - rewrite (lastIndexOf_absent _ _ H). cbn. now rewrite andb_false_r.
Qed.

(** What [sanitize] returns, by the places of the brackets. *)
Lemma sanitize_cases (s : string) :
  GeminiService.sanitize s = s
  \/ (exists pre mid post,
         lacks "[" pre /\ lacks "]" post
         /\ s = pre ++ "[" ++ mid ++ "]" ++ post
         /\ GeminiService.sanitize s = "[" ++ mid ++ "]")
  \/ (exists a mid r,
         lacks "[" mid /\ lacks "]" mid
         /\ s = a ++ "]" ++ mid ++ "[" ++ r
         /\ GeminiService.sanitize s = mid).
Proof.
  destruct (first_occurrence "[" s) as [H | (pre & r & Hs & Hpre)];
    [left; apply sanitize_no_brackets; now left|].
  destruct (last_occurrence "]" s) as [H | (a & post & Hs' & Hpost)];
    [left; apply sanitize_no_brackets; now right|].
  right.
  destruct (Nat.le_gt_cases (String.length pre) (String.length a)) as [Hle | Hgt].
  - left.
    destruct (append_cut pre (String "[" r) a (String "]" post)) as (k & Ha & Hk);
      [congruence | exact Hle |].
    destruct k as [|x mid]; cbn [append] in Hk; [discriminate|].
    injection Hk as <- Hr. subst a r.
    exists pre, mid, post. split; [exact Hpre|]. split; [exact Hpost|].
    assert (E : s = pre ++ "[" ++ mid ++ "]" ++ post) by (rewrite Hs; reflexivity).
    split; [exact E|]. rewrite E. now apply sanitize_wrapped.
  - right.
    destruct (append_cut a (String "]" post) pre (String "[" r)) as (k & Hp & Hk);
      [congruence | lia |].
    destruct k as [|x mid]; cbn [append] in Hk.
    { subst pre. rewrite append_nil_r in Hgt. lia. }
    injection Hk as <- Hpost'.
    assert (Hmid1 : lacks "[" mid).
    { rewrite Hp in Hpre. apply lacks_app in Hpre as [_ [_ H]]. exact H. }
    assert (Hmid2 : lacks "]" mid).
    { rewrite Hpost' in Hpost. apply lacks_app in Hpost as [H _]. exact H. }
    exists a, mid, r. split; [exact Hmid1|]. split; [exact Hmid2|].
    assert (E : s = a ++ "]" ++ mid ++ "[" ++ r).
    { rewrite Hs, Hp, append_assoc. reflexivity. }
    split; [exact E|].
    assert (Hi : JS.indexOf s "[" = Z.of_nat (String.length pre))
      by (rewrite Hs; now apply indexOf_first).
    assert (Hl : JS.lastIndexOf s "]" = Z.of_nat (String.length a))
      by (rewrite Hs'; now apply lastIndexOf_last).
    unfold GeminiService.sanitize. rewrite Hi, Hl.
    destruct (Z.eqb_spec (Z.of_nat (String.length pre)) (-1)); [lia|].
    destruct (Z.eqb_spec (Z.of_nat (String.length a)) (-1)); [lia|].
    cbn [negb andb]. rewrite substring_sym.
    replace (Z.of_nat (String.length a) + 1)%Z
      with (Z.of_nat (String.length (a ++ "]")))
      by (rewrite length_append; cbn [String.length]; lia).
    replace (Z.of_nat (String.length pre))
      with (Z.of_nat (String.length (a ++ "]") + String.length mid))
      by (rewrite Hp, !length_append; cbn [String.length]; lia).
    replace s with ((a ++ "]") ++ mid ++ String "[" r)
      by (rewrite E, append_assoc; reflexivity).
    apply substring_middle.
Qed.

(** X6. Sanitizing twice is sanitizing once. *)
Theorem sanitize_idempotent :
  forall s : string,
    GeminiService.sanitize (GeminiService.sanitize s) = GeminiService.sanitize s.
Proof.
  intros s.
  destruct (sanitize_cases s)
    as [E | [(pre & mid & post & _ & _ & _ & E) | (a & mid & r & H1 & H2 & _ & E)]];
    rewrite E.
  - exact E.
  - exact (sanitize_wrapped "" mid "" I I).
  - apply sanitize_no_brackets. now left.
Qed.

Lemma members_object (fuel : nat) :
  forall s acc v r,
    JSON.members fuel s acc = JSON.Ok v r -> exists ms, v = JSON.Object ms.
Proof.
  induction fuel as [|fuel IH]; intros s acc v r H; [discriminate|].
  cbn [JSON.members] in H.
  destruct (JSON.skip_ws s) as [|c s']; [discriminate|].
  destruct (Ascii.eqb c JSON.dquote); [|discriminate].
  destruct (JSON.chars s') as [key r0| | |]; try discriminate.
  cbn [JSON.bind] in H.
  destruct (JSON.skip_ws r0) as [|d r1]; [discriminate|].
  destruct (Ascii.eqb d ":"); [|discriminate].
  destruct (JSON.element fuel r1) as [v0 r2| | |]; try discriminate.
  cbn [JSON.bind] in H.
  destruct (JSON.skip_ws r2) as [|x r3]; [discriminate|].
  destruct (Ascii.eqb x ","); [now apply IH in H|].
  destruct (Ascii.eqb x "}"); [|discriminate].
  injection H as <- _. now eexists.
Qed.

(** An array starts with an opening bracket. *)
Lemma element_array (fuel : nat) (s : string) (vs : list JSON.value) (r : string) :
  JSON.element fuel s = JSON.Ok (JSON.Array vs) r ->
  exists s', JSON.skip_ws s = String "[" s'.
Proof.
  destruct fuel as [|fuel]; [discriminate|]. cbn [JSON.element].
  destruct (JSON.skip_ws s) as [|c s']; [discriminate|].
  destruct (Ascii.eqb c JSON.dquote).
  { destruct (JSON.chars s'); discriminate. }
  destruct (Ascii.eqb_spec c "[") as [->|_]; [intros _; now exists s'|].
  destruct (Ascii.eqb c "{").
  { destruct (JSON.skip_ws s') as [|d r0]; [discriminate|].
    destruct (Ascii.eqb d "}"); [discriminate|].
    intros H. apply members_object in H as [ms H]. discriminate. }
  unfold JSON.word.
  destruct (Ascii.eqb c "t"); [destruct (String.prefix _ _); discriminate|].
  destruct (Ascii.eqb c "f"); [destruct (String.prefix _ _); discriminate|].
  destruct (Ascii.eqb c "n"); [destruct (String.prefix _ _); discriminate|].
  destruct (JSON.number _); discriminate.
Qed.

Lemma skip_ws_suffix (s : string) : exists w, s = w ++ JSON.skip_ws s.
Proof.
  induction s as [|c s [w IH]]; [now exists ""|]. cbn [JSON.skip_ws].
  destruct (JSON.ws c); [|now exists ""].
  exists (String c w). cbn [append]. now f_equal.
Qed.

(** Text without an opening bracket does not parse to an array. *)
Lemma no_bracket_no_array (text : string) (v : JSON.value) :
  lacks "[" text -> JSON.parse text = JSON.Value v ->
  JSON.as_string_array v = None.
Proof.
  intros Hno. unfold JSON.parse.
  destruct (JSON.element _ text) as [v0 r| | |] eqn:E; try discriminate.
  destruct (JSON.skip_ws r); [|discriminate]. intros [= <-].
  destruct v0; try reflexivity.
  apply element_array in E as [s' E].
  destruct (skip_ws_suffix text) as [w Hw]. rewrite E in Hw. rewrite Hw in Hno.
  apply lacks_app in Hno as [_ [Hno _]]. discriminate.
Qed.



Local Open Scope list_scope.

(** ** A well-formed response *)

Lemma element_more_fuel (extra fuel : nat) (s : string) (v : JSON.value)
  (r : string) :
  JSON.element fuel s = JSON.Ok v r ->
  JSON.element (extra + fuel) s = JSON.Ok v r.
Proof.
  intros H. induction extra as [|extra IH]; [exact H|].
  cbn [Nat.add]. rewrite (proj1 (reader_stable (extra + fuel))); [exact IH|].
  rewrite IH. discriminate.
Qed.

Lemma parse_of_fuel (fuel : nat) (text : string) (v : JSON.value) (r : string) :
  JSON.element fuel text = JSON.Ok v r -> JSON.skip_ws r = EmptyString ->
  JSON.parse text = JSON.Value v.
Proof.
  intros H Hr. unfold JSON.parse.
  assert (E : JSON.element (2 * String.length text + 2) text = JSON.Ok v r).
  { destruct (Nat.le_gt_cases fuel (2 * String.length text + 2)) as [L|L].
    - replace (2 * String.length text + 2)
        with ((2 * String.length text + 2 - fuel) + fuel) by lia.
      now apply element_more_fuel.
    - rewrite <- (parse_fuel_enough text (fuel - (2 * String.length text + 2))).
      replace (2 * String.length text + 2 + (fuel - (2 * String.length text + 2)))
        with fuel by lia.
      exact H. }
  rewrite E, Hr. reflexivity.
Qed.

Lemma chars_plain (s rest : string) :
  plain s ->
  JSON.chars (s ++ String JSON.dquote rest) = JSON.Ok s rest.
Proof.
  induction s as [|c s IH]; intros H; cbn [append JSON.chars].
  - now rewrite Ascii.eqb_refl.
  - destruct H as [Hc Hs]. unfold plain_char in Hc.
    destruct (Ascii.eqb c JSON.dquote); [discriminate|].
    destruct (Ascii.eqb c JSON.backslash); [discriminate|].
    destruct (Nat.ltb (nat_of_ascii c) 32); [discriminate|].
    now rewrite (IH Hs).
Qed.

Lemma element_quoted (fuel : nat) (s rest : string) :
  0 < fuel -> plain s ->
  JSON.element fuel (quoted s ++ rest) = JSON.Ok (JSON.Str s) rest.
Proof.
  intros Hfuel H. destruct fuel as [|fuel]; [lia|].
  unfold quoted. cbn [append JSON.element JSON.skip_ws].
  replace (JSON.ws JSON.dquote) with false by reflexivity.
  rewrite Ascii.eqb_refl, append_assoc. cbn [append].
  now rewrite (chars_plain s rest H).
Qed.

Lemma elements_unfold (fuel : nat) (s : string) (acc : list JSON.value) :
  JSON.elements (S fuel) s acc
  = JSON.bind (JSON.element fuel s) (fun v r =>
      match JSON.skip_ws r with
      | EmptyString => JSON.SyntaxError
      | String d r' =>
          if Ascii.eqb d "," then JSON.elements fuel r' (acc ++ [v])
          else if Ascii.eqb d "]" then JSON.Ok (JSON.Array (acc ++ [v])) r'
          else JSON.SyntaxError
      end).
Proof. reflexivity. Qed.

Lemma elements_quoted (rest : string) (lines : list string) :
  forall (line : string) (acc : list JSON.value) (fuel : nat),
    Forall plain (line :: lines) ->
    length lines + 2 <= fuel ->
    JSON.elements fuel
      (JS.join "," (map quoted (line :: lines)) ++ String "]" rest) acc
    = JSON.Ok (JSON.Array (acc ++ map JSON.Str (line :: lines))) rest.
Proof.
  induction lines as [|next lines IH]; intros line acc fuel Hall Hfuel;
    (destruct fuel as [|fuel]; [lia|]);
    inversion Hall as [|? ? Hline Hrest]; subst;
    rewrite elements_unfold.
  - cbn [map JS.join String.concat].
    rewrite (element_quoted fuel line _) by (cbn [length] in *; lia || assumption).
    reflexivity.
  - change (JS.join "," (map quoted (line :: next :: lines)))
      with (quoted line ++ "," ++ JS.join "," (map quoted (next :: lines)))%string.
    rewrite append_assoc.
    rewrite (element_quoted fuel line _) by (cbn [length] in *; lia || assumption).
    cbn [JSON.bind append JSON.skip_ws].
    replace (JSON.ws ",") with false by reflexivity.
    rewrite Ascii.eqb_refl.
    rewrite (IH next (acc ++ [JSON.Str line]) fuel Hrest)
      by (cbn [length] in *; lia).
    now rewrite <- app_assoc.
Qed.

Lemma strings_of_lines (lines : list string) :
  JSON.strings (map JSON.Str lines) = Some lines.
Proof.
  induction lines as [|line lines IH]; [reflexivity|].
  cbn [map JSON.strings]. now rewrite IH.
Qed.

Lemma parse_stringify (lines : list string) :
  Forall plain lines ->
  JSON.parse (stringify lines) = JSON.Value (JSON.Array (map JSON.Str lines)).
Proof.
  intros H. unfold stringify.
  apply (parse_of_fuel (length lines + 3) _ _ EmptyString); [|reflexivity].
  replace (length lines + 3) with (S (length lines + 2)) by lia.
  destruct lines as [|line lines]; [reflexivity|].
  cbn [append JSON.element JSON.skip_ws].
  replace (JSON.ws "[") with false by reflexivity.
  replace (Ascii.eqb "[" JSON.dquote) with false by reflexivity.
  rewrite Ascii.eqb_refl.
  rewrite (elements_quoted EmptyString lines line [] _ H) by (cbn [length]; lia).
  cbn [map JS.join String.concat quoted append JSON.skip_ws].
  destruct lines; cbn [map String.concat quoted append JSON.skip_ws];
    replace (JSON.ws JSON.dquote) with false by reflexivity;
    replace (Ascii.eqb JSON.dquote "]") with false by reflexivity;
    reflexivity.
Qed.

(** X8. The success path of the adapter.  When the response is the array
    of the lines as JSON, with any chatter before it that holds no
    opening bracket and any chatter behind it that holds no closing
    bracket, the call returns exactly these lines and no error; the
    lines may hold brackets themselves. *)
Theorem array_of_lines_returned :
  forall (pre post : string) (lines : list string),
    lacks "[" pre -> lacks "]" post -> Forall plain lines ->
    GeminiService.on_response (Some (pre ++ stringify lines ++ post)%string)
    = GeminiService.Returns
        {| GeminiService.logs := lines; GeminiService.error := false |}.
Proof.
  intros pre post lines Hpre Hpost Hlines.
  assert (Hcut : GeminiService.sanitize (pre ++ stringify lines ++ post)%string
                 = stringify lines).
  { unfold stringify. rewrite !append_assoc.
    apply (sanitize_wrapped pre _ post Hpre Hpost). }
  destruct (pre ++ stringify lines ++ post)%string as [|c t] eqn:E.
  { destruct pre; discriminate. }
  rewrite on_response_text, Hcut, (parse_stringify lines Hlines).
  cbn [JSON.as_string_array]. now rewrite strings_of_lines.
Qed.

Lemma array_of_lines_returned_witness :
  lacks "[" "Sure! " /\ lacks "]" " thanks"
  /\ Forall plain ["[NAV] ok"; "[ENG] go"]
  /\ GeminiService.on_response
       (Some ("Sure! " ++ stringify ["[NAV] ok"; "[ENG] go"] ++ " thanks")%string)
     = GeminiService.Returns
         {| GeminiService.logs := ["[NAV] ok"; "[ENG] go"];
            GeminiService.error := false |}.
Proof.
  assert (H1 : lacks "[" "Sure! ") by (unfold lacks; cbn; tauto).
  assert (H2 : lacks "]" " thanks") by (unfold lacks; cbn; tauto).
  assert (H3 : Forall plain ["[NAV] ok"; "[ENG] go"])
    by (repeat constructor).
  split; [exact H1|]. split; [exact H2|]. split; [exact H3|].
  exact (array_of_lines_returned "Sure! " " thanks" _ H1 H2 H3).
Defined.

(** ** The prompt of a call *)

Lemma slice_last_older {A} (n : nat) (older recent : list A) :
  n <= length recent ->
  JS.slice_last n (older ++ recent) = JS.slice_last n recent.
Proof.
  intros H. unfold JS.slice_last. rewrite length_app, skipn_app.
  replace (length older + length recent - n - length older)
    with (length recent - n) by lia.
  rewrite skipn_all2 by lia. reflexivity.
Qed.

(** X9. A call reads the last ten lines of the context it is given and
    nothing before them: lines further back change neither the result,
    nor the request, nor what becomes of the corpus. *)
Theorem older_context_ignored :
  forall (apiKey : string) (older recent : list string) (count : Z)
    (env : GeminiService.Env) (SEED : list string),
    10 <= length recent ->
    GeminiService.generateStatusBatch apiKey (older ++ recent) count env SEED
    = GeminiService.generateStatusBatch apiKey recent count env SEED.
Proof.
  intros apiKey older recent count env SEED H.
  unfold GeminiService.generateStatusBatch, GeminiService.start.
  now rewrite (slice_last_older 10 older recent H).
Qed.

Lemma older_context_ignored_witness :
  10 <= length (repeat "[NAV] ok" 10)
  /\ GeminiService.generateStatusBatch "key"
       (["[SYS] boot"; "[ENG] go"] ++ repeat "[NAV] ok" 10) 1
       {| GeminiService.samplePicks := [];
          GeminiService.reply := GeminiService.Response None;
          GeminiService.fallbackPicks := [] |}
       sample_seeds
     = GeminiService.generateStatusBatch "key" (repeat "[NAV] ok" 10) 1
         {| GeminiService.samplePicks := [];
            GeminiService.reply := GeminiService.Response None;
            GeminiService.fallbackPicks := [] |}
         sample_seeds.
Proof.
  assert (H : 10 <= length (repeat "[NAV] ok" 10)) by (cbn; lia).
  split; [exact H|].
  exact (older_context_ignored "key" ["[SYS] boot"; "[ENG] go"]
           (repeat "[NAV] ok" 10) 1 _ sample_seeds H).
Defined.

Local Open Scope list_scope.

(** ** The timeout and the pause button *)

Lemma running_fetchMoreLogs (apiKey : string) (e : App.FetchEnv) (s : App.State) :
  App.isRunning (App.fetchMoreLogs apiKey e s) = App.isRunning s
  /\ App.timer (App.fetchMoreLogs apiKey e s) = App.timer s.
Proof.
  unfold App.fetchMoreLogs. destruct (App.isLoadingRef s); [now split|].
  cbn. destruct (App.useGeminiNext s); now split.
Qed.

Lemma timer_processNextMessage (apiKey : string) (e : App.TickEnv) (s : App.State) :
  App.isRunning s = true ->
  App.isRunning (App.processNextMessage apiKey e s) = true
  /\ App.timer (App.processNextMessage apiKey e s) = true.
Proof.
  intros Hrun. unfold App.processNextMessage. rewrite Hrun. cbn [negb].
  destruct (App.bufferRef s) as [|nextRaw newBuffer].
  - case_if; cbn; rewrite ?(proj1 (running_fetchMoreLogs _ _ _)); auto.
  - case_if; cbn; rewrite ?(proj1 (running_fetchMoreLogs _ _ _)); auto.
Qed.

Lemma timer_step (apiKey : string) (ev : App.Event) (s s' : App.State) :
  App.step apiKey ev s = Some s' ->
  App.timer s = App.isRunning s -> App.timer s' = App.isRunning s'.
Proof.
  intros Hstep Hs. destruct ev as [|e|i r picks|e]; cbn [App.step] in Hstep.
  - inversion Hstep; subst. exact Hs.
  - destruct (App.timer s) eqn:T; [|discriminate]. inversion Hstep; subst.
    destruct (timer_processNextMessage apiKey e (App.set_timer false s)) as [H1 H2];
      [cbn; congruence|]. congruence.
  - destruct (nth_error (App.awaiting s) i) as [[b|q]|]; [| |discriminate].
    + inversion Hstep; subst. exact Hs.
    + destruct (GeminiService.settle _ r picks _) as [b| |];
        inversion Hstep; subst. exact Hs.
  - inversion Hstep; subst. cbn [App.isRunning App.set_timer App.sync_refs App.setIsRunning].
    destruct (App.isRunning s); cbn [negb]; [reflexivity|].
    match goal with |- App.timer ?t = App.isRunning ?t =>
      destruct (timer_processNextMessage apiKey e
                  (App.set_timer false (App.sync_refs (App.setIsRunning true s))))
        as [H1 H2]; [reflexivity|]
    end.
    congruence.
Qed.

Lemma timer_mount (apiKey : string) (me : App.MountEnv) (seeds : list string) :
  App.timer (App.mount apiKey me seeds) = App.isRunning (App.mount apiKey me seeds).
Proof.
  unfold App.mount.
  match goal with |- App.timer (App.processNextMessage _ _ ?t) = _ =>
    destruct (timer_processNextMessage apiKey (App.firstTick me) t) as [H1 H2]
  end.
  - rewrite (proj1 (running_fetchMoreLogs _ _ _)). reflexivity.
  - congruence.
Qed.



(** ** The corpus and the requests along a run *)

Lemma tick_preserves (P : App.State -> Prop) (apiKey : string) :
  (forall e s, P s -> P (App.fetchMoreLogs apiKey e s)) ->
  (forall f s, P s -> P (App.setLogs f s)) ->
  (forall f s, P s -> P (App.setBuffer f s)) ->
  (forall v s, P s -> P (App.set_timer v s)) ->
  forall e s, P s -> P (App.processNextMessage apiKey e s).
Proof.
  intros Hfetch Hlogs Hbuffer Htimer e s Hs. unfold App.processNextMessage.
  destruct (negb (App.isRunning s)); [exact Hs|].
  destruct (App.bufferRef s) as [|nextRaw newBuffer]; case_if; auto.
Qed.

Lemma slice_last_short {A} (n : nat) (xs : list A) :
  length xs <= n -> JS.slice_last n xs = xs.
Proof.
  intros H. unfold JS.slice_last. now replace (length xs - n) with 0 by lia.
Qed.

Lemma slice_to_incl {A} (n : Z) (xs : list A) : incl (JS.slice_to n xs) xs.
Proof.
  intros x Hx. destruct (slice_to_prefix n xs) as [rest E]. rewrite E.
  apply in_or_app. now left.
Qed.

Lemma corpus_fetchMoreLogs (apiKey : string) (e : App.FetchEnv) (s : App.State) :
  Permutation (App.SEED_MESSAGES s)
    (App.SEED_MESSAGES (App.fetchMoreLogs apiKey e s)).
Proof.
  unfold App.fetchMoreLogs. destruct (App.isLoadingRef s); [reflexivity|].
  cbn. destruct (App.useGeminiNext s); [|reflexivity].
  unfold GeminiService.start. case_if; cbn; [reflexivity | apply shuffle_perm].
Qed.

Lemma corpus_step (seeds : list string) (apiKey : string) (ev : App.Event)
  (s s' : App.State) :
  App.step apiKey ev s = Some s' ->
  Permutation seeds (App.SEED_MESSAGES s) ->
  Permutation seeds (App.SEED_MESSAGES s').
Proof.
  apply (step_preserves (fun s => Permutation seeds (App.SEED_MESSAGES s)));
    auto.
  apply (tick_preserves (fun s => Permutation seeds (App.SEED_MESSAGES s)));
    auto.
  intros e t Ht. etransitivity; [exact Ht | apply corpus_fetchMoreLogs].
Qed.

Lemma corpus_mount (apiKey : string) (me : App.MountEnv) (seeds : list string) :
  Permutation seeds (App.SEED_MESSAGES (App.mount apiKey me seeds)).
Proof.
  unfold App.mount.
  apply (tick_preserves (fun s => Permutation seeds (App.SEED_MESSAGES s)));
    auto.
  - intros e t Ht. etransitivity; [exact Ht | apply corpus_fetchMoreLogs].
  - etransitivity; [|apply corpus_fetchMoreLogs]. reflexivity.
Qed.

Lemma corpus_run (apiKey : string) (me : App.MountEnv) (seeds : list string)
  (evs : list App.Event) (s : App.State) :
  App.run apiKey evs (App.mount apiKey me seeds) = Some s ->
  Permutation seeds (App.SEED_MESSAGES s).
Proof.
  intros Hrun.
  eapply (run_invariant (fun s => Permutation seeds (App.SEED_MESSAGES s)));
    [apply corpus_step | exact Hrun | apply corpus_mount].
Qed.

Lemma randomMsg_in (seedDraw : nat) (SEED : list string) :
  SEED <> [] -> In (App.randomMsg seedDraw SEED) SEED.
Proof.
  intros H. unfold App.randomMsg. apply nth_In.
  apply Nat.mod_upper_bound. destruct SEED; [congruence | discriminate].
Qed.

(** X11. The corpus is only ever reordered: whatever happens, it holds the
    lines it was loaded with, each as often as before; so a seed turn
    always enqueues one of the original lines. *)
Theorem corpus_only_reordered :
  forall (apiKey : string) (me : App.MountEnv) (seeds : list string)
    (evs : list App.Event) (s : App.State),
    App.run apiKey evs (App.mount apiKey me seeds) = Some s ->
    Permutation seeds (App.SEED_MESSAGES s)
    /\ length (App.SEED_MESSAGES s) = length seeds
    /\ (seeds <> [] ->
        forall (e : App.FetchEnv),
          App.isLoadingRef s = false -> App.useGeminiNext s = false ->
          exists line,
            In line seeds
            /\ App.buffer (App.fetchMoreLogs apiKey e s) = App.buffer s ++ [line]).
Proof.
  intros apiKey me seeds evs s Hrun.
  pose proof (corpus_run apiKey me seeds evs s Hrun) as Hp.
  split; [exact Hp|]. split; [symmetry; now apply Permutation_length|].
  intros Hne e Hl Hg.
  exists (App.randomMsg (App.seedDraw e) (App.SEED_MESSAGES s)). split.
  - apply (Permutation_in _ (Permutation_sym Hp)). apply randomMsg_in.
    intros E. rewrite E in Hp. apply Permutation_sym, Permutation_nil in Hp.
    contradiction.
  - unfold App.fetchMoreLogs. rewrite Hl. cbn. rewrite Hg. reflexivity.
Qed.

Lemma corpus_only_reordered_witness :
  exists s : App.State,
    App.run "key" (firstn 1 sample_trace)
      (App.mount "key" sample_mount sample_seeds)
    = Some s
    /\ Permutation sample_seeds (App.SEED_MESSAGES s)
    /\ exists line,
         In line sample_seeds
         /\ App.buffer (App.fetchMoreLogs "key" sample_fetch s)
            = App.buffer s ++ [line].
Proof.
  pose proof (corpus_only_reordered "key" sample_mount sample_seeds
                (firstn 1 sample_trace)) as H.
  eexists. split; [lazy; reflexivity|].
  match goal with
  | |- Permutation _ (App.SEED_MESSAGES ?s) /\ _ =>
      destruct (H s) as (Hperm & _ & Hseed); [lazy; reflexivity|]
  end.
  split; [exact Hperm|].
  apply Hseed; [discriminate | reflexivity | reflexivity].
Defined.

Lemma modest_fetchMoreLogs (seeds : list string) (apiKey : string)
  (e : App.FetchEnv) (s : App.State) :
  Permutation seeds (App.SEED_MESSAGES s) ->
  Forall (modest seeds) (App.sent s) ->
  Forall (modest seeds) (App.sent (App.fetchMoreLogs apiKey e s)).
Proof.
  intros Hp Hs. unfold App.fetchMoreLogs.
  destruct (App.isLoadingRef s); [exact Hs|].
  cbn. destruct (App.useGeminiNext s); [|exact Hs].
  unfold GeminiService.start. case_if; cbn; [exact Hs|].
  apply Forall_app. split; [exact Hs|]. constructor; [|constructor].
  split; [reflexivity|]. split; [reflexivity|]. split.
  - exists (JS.slice_last 5 (App.logsRef s)). split.
    + rewrite length_slice_last. apply Nat.le_min_l.
    + cbn [GeminiService.recentExamples]. rewrite slice_last_short; [reflexivity|].
      rewrite length_map, length_skipn. lia.
  - exists (JS.slice_to 5 (shuffle (App.samplePicks e) (App.SEED_MESSAGES s))).
    split; [|split; [|reflexivity]].
    + rewrite length_slice_to by lia. apply Nat.le_min_l.
    + intros x Hx. apply slice_to_incl in Hx.
      apply (Permutation_in _ (Permutation_sym Hp)).
      apply (Permutation_in _
               (Permutation_sym (shuffle_perm (App.samplePicks e) _))).
      exact Hx.
Qed.

Lemma modest_step (seeds : list string) (apiKey : string) (ev : App.Event)
  (s s' : App.State) :
  App.step apiKey ev s = Some s' ->
  Permutation seeds (App.SEED_MESSAGES s) /\ Forall (modest seeds) (App.sent s) ->
  Permutation seeds (App.SEED_MESSAGES s') /\ Forall (modest seeds) (App.sent s').
Proof.
  apply (step_preserves
           (fun s => Permutation seeds (App.SEED_MESSAGES s)
                     /\ Forall (modest seeds) (App.sent s))); auto.
  apply (tick_preserves
           (fun s => Permutation seeds (App.SEED_MESSAGES s)
                     /\ Forall (modest seeds) (App.sent s))); auto.
  intros e t [Hp Hs]. split.
  - etransitivity; [exact Hp | apply corpus_fetchMoreLogs].
  - now apply modest_fetchMoreLogs.
Qed.



(** ** Without a key *)

Lemma Forall_remove_at {A} (P : A -> Prop) (i : nat) (xs : list A) :
  Forall P xs -> Forall P (remove_at i xs).
Proof.
  intros H. unfold remove_at. rewrite Forall_forall in *. intros x Hx.
  apply H. apply in_app_or in Hx. destruct Hx as [Hx|Hx].
  - rewrite <- (firstn_skipn i xs). apply in_or_app. now left.
  - rewrite <- (firstn_skipn (S i) xs). apply in_or_app. now right.
Qed.

Lemma in_step_started (s : App.State) :
  in_step s -> App.useGeminiNext s = false -> App.completed s <> [].
Proof.
  intros [Hflag _] Hg E. rewrite E in Hflag. cbn in Hflag. congruence.
Qed.

Lemma keyless_fetchMoreLogs (seeds : list string) (e : App.FetchEnv)
  (s : App.State) :
  keyless seeds s -> keyless seeds (App.fetchMoreLogs EmptyString e s).
Proof.
  intros (Hflag & Hsent & Hseed & Hwait & Herr).
  split; [now apply in_step_fetchMoreLogs|].
  unfold App.fetchMoreLogs. destruct (App.isLoadingRef s); [now repeat split|].
  cbn. destruct (App.useGeminiNext s) eqn:G; cbn.
  - repeat split; auto. apply Forall_app. split; [exact Hwait|].
    constructor; [reflexivity | constructor].
  - repeat split; auto. intros _. apply Herr. now apply in_step_started.
Qed.

Lemma keyless_step (seeds : list string) (ev : App.Event) (s s' : App.State) :
  App.step EmptyString ev s = Some s' -> keyless seeds s -> keyless seeds s'.
Proof.
  intros Hstep Hs.
  assert (Htick : forall e t, keyless seeds t ->
                    keyless seeds (App.processNextMessage EmptyString e t)).
  { apply (tick_preserves (keyless seeds)).
    - apply keyless_fetchMoreLogs.
    - intros f t H. exact H.
    - intros f t H. exact H.
    - intros v t H. exact H. }
  destruct ev as [|e|i r picks|e]; cbn [App.step] in Hstep.
  - inversion Hstep; subst. exact Hs.
  - destruct (App.timer s); inversion Hstep; subst. apply Htick. exact Hs.
  - destruct (nth_error (App.awaiting s) i) as [c|] eqn:E; [|discriminate].
    destruct Hs as (Hflag & Hsent & Hseed & Hwait & Herr).
    pose proof (proj1 (Forall_forall _ _) Hwait c (nth_error_In _ _ E)) as Hc.
    subst c. inversion Hstep; subst. split; [|repeat split; auto].
    + apply in_step_resume. exact Hflag.
    + cbn. now apply Forall_remove_at.
  - inversion Hstep; subst. case_if; [apply Htick|]; exact Hs.
Qed.

(** X13. Without a key the component never puts a request on the wire and
    never reorders the corpus; every call it waits for will hand over
    the two fixed lines of the missing key; and from the first completed
    fetch cycle on the error flag is set. *)
Theorem keyless_stream :
  forall (me : App.MountEnv) (seeds : list string) (evs : list App.Event)
    (s : App.State),
    App.run EmptyString evs (App.mount EmptyString me seeds) = Some s ->
    App.sent s = []
    /\ App.SEED_MESSAGES s = seeds
    /\ Forall (eq (GeminiService.Immediate GeminiService.missing_key))
         (App.awaiting s)
    /\ (App.completed s <> [] -> App.aiError s = true).
Proof.
  intros me seeds evs s Hrun.
  apply (run_invariant (keyless seeds) EmptyString (keyless_step seeds)
           evs _ s Hrun).
  unfold App.mount.
  apply (tick_preserves (keyless seeds)).
  - apply keyless_fetchMoreLogs.
  - intros f t H. exact H.
  - intros f t H. exact H.
  - intros v t H. exact H.
  - apply keyless_fetchMoreLogs. repeat split; try reflexivity.
    + constructor.
    + intros H. now destruct H.
Qed.

Lemma keyless_stream_witness :
  exists s : App.State,
    App.run EmptyString [App.Settle 0 (GeminiService.Response None) []]
      (App.mount EmptyString sample_mount sample_seeds)
    = Some s
    /\ App.completed s = [false]
    /\ App.sent s = []
    /\ App.SEED_MESSAGES s = sample_seeds
    /\ Forall (eq (GeminiService.Immediate GeminiService.missing_key))
         (App.awaiting s)
    /\ App.aiError s = true.
Proof.
  pose proof (keyless_stream sample_mount sample_seeds
                [App.Settle 0 (GeminiService.Response None) []]) as H.
  eexists. split; [lazy; reflexivity|]. split; [reflexivity|].
  match goal with
  | |- App.sent ?s = [] /\ _ =>
      destruct (H s) as (Hsent & Hseed & Hwait & Herr); [lazy; reflexivity|]
  end.
  repeat (split; [assumption|]). apply Herr. discriminate.
Defined.

(** ** The error flag *)



(** ** One entry a tick *)

Lemma buffer_fetchMoreLogs (apiKey : string) (e : App.FetchEnv) (s : App.State) :
  App.buffer (App.fetchMoreLogs apiKey e s) = App.buffer s
  \/ App.isLoadingRef s = false /\ App.useGeminiNext s = false
     /\ App.buffer (App.fetchMoreLogs apiKey e s)
        = App.buffer s
          ++ [App.randomMsg (App.seedDraw e) (App.SEED_MESSAGES s)].
Proof.
  unfold App.fetchMoreLogs. destruct (App.isLoadingRef s); [now left|].
  cbn. destruct (App.useGeminiNext s); [now left|]. right. auto.
Qed.

Lemma tick_consumes (apiKey : string) (e : App.TickEnv) (s : App.State) :
  App.isRunning s = true ->
  match App.bufferRef s with
  | nextRaw :: newBuffer =>
      App.logs (App.processNextMessage apiKey e s)
      = App.appendLog (App.logs s) (App.newLog (App.draw e) (App.now e) nextRaw)
      /\ exists extra,
           App.buffer (App.processNextMessage apiKey e s) = newBuffer ++ extra
           /\ length extra <= 1
  | [] => App.logs (App.processNextMessage apiKey e s) = App.logs s
  end.
Proof.
  intros Hrun. destruct (App.bufferRef s) as [|nextRaw newBuffer] eqn:B.
  - destruct (logs_processNextMessage apiKey e s) as [E|(r & b & E & _)];
      [exact E | congruence].
  - split; [exact (tick_appends apiKey e s nextRaw newBuffer Hrun B)|].
    unfold App.processNextMessage. rewrite Hrun, B. cbn [negb].
    case_if; cbn [App.buffer App.set_timer].
    + match goal with |- context [App.fetchMoreLogs apiKey ?f ?t] =>
        destruct (buffer_fetchMoreLogs apiKey f t) as [E|(_ & _ & E)]
      end; rewrite E; cbn [App.buffer App.setLogs App.setBuffer].
      * exists []. rewrite app_nil_r. auto.
      * eexists. split; [reflexivity|]. cbn. lia.
    + exists []. rewrite app_nil_r. auto.
Qed.

(** X15. An event adds at most one entry to the display log.  Only a tick,
    or a click that resumes the stream, adds one; the entry is made of
    the head of the buffer as the last render left it, and the buffer
    becomes the rest of that snapshot, with at most one line of a seed
    turn behind it. *)
Theorem one_entry_per_tick :
  forall (apiKey : string) (ev : App.Event) (s s' : App.State),
    App.step apiKey ev s = Some s' ->
    App.logs s' = App.logs s
    \/ exists e nextRaw newBuffer extra,
         (ev = App.Tick e /\ App.bufferRef s = nextRaw :: newBuffer
          \/ ev = App.Click e /\ App.buffer s = nextRaw :: newBuffer)
         /\ App.logs s'
            = App.appendLog (App.logs s)
                (App.newLog (App.draw e) (App.now e) nextRaw)
         /\ App.buffer s' = newBuffer ++ extra
         /\ length extra <= 1.
Proof.
  intros apiKey ev s s' Hstep.
  destruct ev as [|e|i r picks|e]; cbn [App.step] in Hstep.
  - inversion Hstep; subst. now left.
  - destruct (App.timer s); inversion Hstep; subst.
    destruct (App.isRunning s) eqn:Hrun.
    + pose proof (tick_consumes apiKey e (App.set_timer false s) Hrun) as H.
      cbn [App.bufferRef App.set_timer] in H.
      destruct (App.bufferRef s) as [|nextRaw newBuffer] eqn:B.
      * left. exact H.
      * right. destruct H as (Hlogs & extra & Hbuf & Hlen).
        exists e, nextRaw, newBuffer, extra. auto.
    + left. unfold App.processNextMessage. cbn. now rewrite Hrun.
  - destruct (nth_error (App.awaiting s) i) as [[b|q]|]; [| |discriminate].
    + inversion Hstep; subst. now left.
    + destruct (GeminiService.settle _ r picks _) as [b| |];
        inversion Hstep; subst. now left.
  - inversion Hstep; subst. cbn [App.isRunning App.set_timer App.sync_refs App.setIsRunning].
    destruct (App.isRunning s); cbn [negb]; [now left|].
    pose proof (tick_consumes apiKey e
                  (App.set_timer false (App.sync_refs (App.setIsRunning true s)))
                  eq_refl) as H.
    cbn [App.bufferRef App.set_timer App.sync_refs App.setIsRunning App.buffer] in H.
    destruct (App.buffer s) as [|nextRaw newBuffer] eqn:B.
    + left. exact H.
    + right. destruct H as (Hlogs & extra & Hbuf & Hlen).
      exists e, nextRaw, newBuffer, extra. auto.
Qed.

Lemma one_entry_per_tick_witness :
  exists s s' : App.State,
    sample_before_tick = Some s
    /\ App.step "key" (App.Tick (sample_tick "12:00:02.500")) s = Some s'
    /\ (App.logs s' = App.logs s
        \/ exists e nextRaw newBuffer extra,
             (App.Tick (sample_tick "12:00:02.500") = App.Tick e
              /\ App.bufferRef s = nextRaw :: newBuffer
              \/ App.Tick (sample_tick "12:00:02.500") = App.Click e
                 /\ App.buffer s = nextRaw :: newBuffer)
             /\ App.logs s'
                = App.appendLog (App.logs s)
                    (App.newLog (App.draw e) (App.now e) nextRaw)
             /\ App.buffer s' = newBuffer ++ extra
             /\ length extra <= 1).
Proof.
  eexists. eexists. split; [lazy; reflexivity|]. split; [lazy; reflexivity|].
  apply (one_entry_per_tick "key" (App.Tick (sample_tick "12:00:02.500"))).
  lazy. reflexivity.
Defined.

(** ** Without a working text source *)

Lemma stock_appendLog (seeds : list string) (boot prev : list LogMessage)
  (entry : LogMessage) :
  Forall (stock_entry seeds boot) prev -> stock_entry seeds boot entry ->
  Forall (stock_entry seeds boot) (App.appendLog prev entry).
Proof.
  intros Hprev Hentry. unfold App.appendLog, JS.slice_last.
  rewrite Forall_forall. intros x Hx.
  assert (H : In x (prev ++ [entry])).
  { rewrite <- (firstn_skipn (length (prev ++ [entry]) - MAX_LOGS)).
    apply in_or_app. now right. }
  apply in_app_or in H. destruct H as [H|[H|[]]].
  - now apply (proj1 (Forall_forall _ _) Hprev).
  - now subst.
Qed.

Lemma offline_fetchMoreLogs (seeds : list string) (boot : list LogMessage)
  (apiKey : string) (e : App.FetchEnv) (s : App.State) :
  seeds <> [] ->
  offline seeds boot s -> offline seeds boot (App.fetchMoreLogs apiKey e s).
Proof.
  intros Hne (Hp & Hbuf & Href & Hlogs & Hwait).
  split; [etransitivity; [exact Hp | apply corpus_fetchMoreLogs]|].
  unfold App.fetchMoreLogs. destruct (App.isLoadingRef s); [now repeat split|].
  cbn. destruct (App.useGeminiNext s); cbn.
  - repeat split; auto. apply Forall_app. split; [exact Hwait|].
    constructor; [|constructor].
    unfold GeminiService.start. case_if; cbn; auto.
  - repeat split; auto. apply Forall_app. split; [exact Hbuf|].
    constructor; [|constructor]. left.
    apply (Permutation_in _ (Permutation_sym Hp)). apply randomMsg_in.
    intros E. rewrite E in Hp. apply Permutation_sym, Permutation_nil in Hp.
    contradiction.
Qed.

Lemma offline_processNextMessage (seeds : list string) (boot : list LogMessage)
  (apiKey : string) (e : App.TickEnv) (s : App.State) :
  seeds <> [] ->
  offline seeds boot s -> offline seeds boot (App.processNextMessage apiKey e s).
Proof.
  intros Hne Hs. unfold App.processNextMessage.
  destruct (negb (App.isRunning s)); [exact Hs|].
  assert (Htimer : forall t, offline seeds boot t ->
                     offline seeds boot (App.set_timer true t))
    by (intros t H; exact H).
  destruct (App.bufferRef s) as [|nextRaw newBuffer] eqn:B.
  - case_if; apply Htimer; repeat apply offline_fetchMoreLogs; auto.
  - assert (Ht : offline seeds boot
                   (App.setLogs
                      (fun prev =>
                         App.appendLog prev
                           (App.newLog (App.draw e) (App.now e) nextRaw))
                      (App.setBuffer (fun _ => newBuffer) s))).
    { destruct Hs as (Hp & Hbuf & Href & Hlogs & Hwait).
      rewrite B in Href. inversion Href; subst.
      repeat split; cbn; auto.
      - rewrite B. now constructor.
      - apply stock_appendLog; [exact Hlogs|]. right. eauto. }
    case_if; apply Htimer; [apply offline_fetchMoreLogs|]; auto.
Qed.

Lemma offline_on_error (seeds : list string) (errorMessage : string)
  (count : Z) (picks : list nat) (SEED : list string) :
  Permutation seeds SEED ->
  Forall (stock_line seeds)
    (GeminiService.logs (GeminiService.on_error errorMessage count picks SEED)).
Proof.
  intros Hp. unfold GeminiService.on_error. case_if.
  - rewrite Forall_forall. intros x Hx. left.
    apply slice_to_incl in Hx.
    apply (Permutation_in _ (Permutation_sym Hp)).
    apply (Permutation_in _ (Permutation_sym (shuffle_perm picks _))).
    exact Hx.
  - constructor; [|constructor]. right. right. now left.
Qed.

Lemma offline_resume (seeds : list string) (boot : list LogMessage)
  (a : list GeminiService.Started) (b : GeminiService.Batch) (s : App.State) :
  Forall (stock_line seeds) (GeminiService.logs b) ->
  Forall keyless_or_sent a ->
  offline seeds boot s ->
  offline seeds boot (App.resume b (App.set_awaiting a s)).
Proof.
  intros Hb Ha (Hp & Hbuf & Href & Hlogs & Hwait).
  repeat split; cbn; auto. apply Forall_app. now split.
Qed.

Lemma offline_step (seeds : list string) (boot : list LogMessage)
  (apiKey : string) (ev : App.Event) (s s' : App.State) :
  seeds <> [] -> unanswered ev ->
  App.step apiKey ev s = Some s' ->
  offline seeds boot s -> offline seeds boot s'.
Proof.
  intros Hne Hev Hstep Hs.
  destruct ev as [|e|i r picks|e]; cbn [App.step] in Hstep.
  - inversion Hstep; subst.
    destruct Hs as (Hp & Hbuf & Href & Hlogs & Hwait). now repeat split.
  - destruct (App.timer s); inversion Hstep; subst.
    now apply offline_processNextMessage.
  - destruct (nth_error (App.awaiting s) i) as [c|] eqn:E; [|discriminate].
    assert (Hc : keyless_or_sent c).
    { destruct Hs as (_ & _ & _ & _ & Hwait).
      exact (proj1 (Forall_forall _ _) Hwait c (nth_error_In _ _ E)). }
    assert (Ha : Forall keyless_or_sent (remove_at i (App.awaiting s))).
    { apply Forall_remove_at. now destruct Hs as (_ & _ & _ & _ & Hwait). }
    destruct c as [b|q].
    + inversion Hstep; subst. apply offline_resume; auto.
      cbn in Hc. subst b. constructor; [|constructor; [|constructor]].
      * right. left. now left.
      * right. left. right. now left.
    + destruct r as [text|errorMessage]; [contradiction|].
      cbn [GeminiService.settle] in Hstep. inversion Hstep; subst.
      apply offline_resume; auto.
      apply offline_on_error. now destruct Hs.
  - inversion Hstep; subst. case_if.
    + apply offline_processNextMessage; [exact Hne|].
      destruct Hs as (Hp & Hbuf & Href & Hlogs & Hwait). now repeat split.
    + destruct Hs as (Hp & Hbuf & Href & Hlogs & Hwait). now repeat split.
Qed.

(** X16. As long as no request is answered, whether for want of a key or
    because every request is rejected, the stream goes on with lines the
    program holds itself: every line in the buffer is a corpus line or
    one of the three fixed lines of the adapter, and every entry of the
    display log is made of such a line or belongs to the boot sequence. *)
Theorem offline_stream_is_stock :
  forall (apiKey : string) (me : App.MountEnv) (seeds : list string)
    (evs : list App.Event) (s : App.State),
    seeds <> [] -> Forall unanswered evs ->
    App.run apiKey evs (App.mount apiKey me seeds) = Some s ->
    Forall (stock_line seeds) (App.buffer s)
    /\ Forall (stock_entry seeds (App.initialLogs (App.bootTimes me)))
         (App.logs s).
Proof.
  intros apiKey me seeds evs s Hne Hevs Hrun.
  assert (H : offline seeds (App.initialLogs (App.bootTimes me)) s).
  { assert (H0 : offline seeds (App.initialLogs (App.bootTimes me))
                   (App.mount apiKey me seeds)).
    { unfold App.mount.
      apply offline_processNextMessage, offline_fetchMoreLogs; auto.
      repeat split; cbn; auto.
      rewrite Forall_forall. intros x Hx. now left. }
    revert Hevs Hrun H0. generalize (App.mount apiKey me seeds).
    induction evs as [|ev evs IH]; intros s0 Hevs Hrun H0;
      cbn [App.run] in Hrun.
    - now inversion Hrun; subst.
    - destruct (App.step apiKey ev s0) as [s1|] eqn:E; [|discriminate].
      inversion Hevs; subst.
      apply (IH s1); auto. eapply offline_step; eauto. }
  destruct H as (_ & Hbuf & _ & Hlogs & _). now split.
Qed.

Lemma offline_stream_is_stock_witness :
  exists s : App.State,
    sample_seeds <> []
    /\ Forall unanswered
         [App.Settle 0 (GeminiService.Rejected rate_limited) [];
          App.Render; App.Tick (sample_tick "12:00:02.500")]
    /\ App.run "key"
         [App.Settle 0 (GeminiService.Rejected rate_limited) [];
          App.Render; App.Tick (sample_tick "12:00:02.500")]
         (App.mount "key" sample_mount sample_seeds)
       = Some s
    /\ length (App.logs s) = 4
    /\ Forall (stock_line sample_seeds) (App.buffer s)
    /\ Forall (stock_entry sample_seeds
                 (App.initialLogs (App.bootTimes sample_mount)))
         (App.logs s).
Proof.
  assert (Hne : sample_seeds <> []) by discriminate.
  assert (Hevs : Forall unanswered
                   [App.Settle 0 (GeminiService.Rejected rate_limited) [];
                    App.Render; App.Tick (sample_tick "12:00:02.500")])
    by (repeat constructor).
  pose proof (fun s =>
                offline_stream_is_stock "key" sample_mount sample_seeds
                  _ s Hne Hevs) as H.
  eexists. split; [exact Hne|]. split; [exact Hevs|].
  split; [lazy; reflexivity|]. split; [reflexivity|].
  apply H. lazy. reflexivity.
Defined.

Local Open Scope string_scope.

(** ** The page the server sends *)

Lemma find_unfold (pat s : string) :
  JSText.find pat s
  = if String.prefix pat s
    then Some (EmptyString, JS.drop (String.length pat) s)
    else match s with
         | EmptyString => None
         | String c s' =>
             match JSText.find pat s' with
             | Some (before, after) => Some (String c before, after)
             | None => None
             end
         end.
Proof. destruct s; reflexivity. Qed.

Lemma find_absent (pat s : string) :
  ~ occurs pat s -> JSText.find pat s = None.
Proof.
  intros H. assert (E : JS.includes s pat = false).
  { destruct (JS.includes s pat) eqn:E; [|reflexivity].
    now apply includes_occurs in E. }
  clear H. induction s as [|c s IH]; rewrite find_unfold;
    rewrite includes_unfold in E;
    destruct (String.prefix pat _); try discriminate; [reflexivity|].
  now rewrite (IH E).
Qed.

Lemma occurs_later (pat : string) (c : ascii) (s : string) :
  occurs pat s -> occurs pat (String c s).
Proof.
  intros (a & b & E). exists (String c a), b. now rewrite E.
Qed.

(** A pattern whose first character does not come again in it cannot lie
    across the end of [pre] and the start of a copy of itself. *)
Lemma no_overlap (h : ascii) (t : string) :
  lacks h t ->
  forall pre x rest : string,
    (pre ++ String h x)%string = (t ++ rest)%string ->
    exists r, pre = (t ++ r)%string.
Proof.
  induction t as [|d t IH]; intros Ht pre x rest E.
  - now exists pre.
  - destruct Ht as [Hd Ht]. destruct pre as [|c pre]; cbn [append] in E.
    + injection E as Ec _. subst d. rewrite Ascii.eqb_refl in Hd. discriminate.
    + injection E as Ec E. subst d.
      destruct (IH Ht pre x rest E) as [r Hr]. exists r. now rewrite Hr.
Qed.

Lemma find_first (h : ascii) (t : string) :
  lacks h t ->
  forall pre post : string,
    ~ occurs (String h t) pre ->
    JSText.find (String h t) (pre ++ String h t ++ post) = Some (pre, post).
Proof.
  intros Ht pre post. induction pre as [|c pre IH]; intros Hpre.
  - rewrite find_unfold. cbn [append].
    replace (String.prefix (String h t) (String h (t ++ post))) with true
      by (symmetry; apply prefix_occurs; now exists post).
    change (String h (t ++ post)) with (String h t ++ post)%string.
    now rewrite drop_length_prefix.
  - rewrite find_unfold.
    destruct (String.prefix (String h t) ((String c pre) ++ String h t ++ post))
      eqn:P.
    + exfalso. apply Hpre. apply prefix_occurs in P. destruct P as [rest E].
      cbn [append] in E. injection E as Ec E. subst c.
      destruct (no_overlap h t Ht pre (t ++ post) rest E) as [r Hr].
      exists EmptyString, r. cbn [append]. now rewrite Hr.
    + cbn [append]. change (String h (t ++ post)) with (String h t ++ post)%string.
      rewrite IH; [reflexivity|].
      intros H. apply Hpre. now apply occurs_later.
Qed.

Lemma getSubstitution_plain (before matched after template rest : string) :
  lacks "$" template ->
  JSText.getSubstitution before matched after (template ++ rest)
  = (template ++ JSText.getSubstitution before matched after rest)%string.
Proof.
  induction template as [|d t IH]; intros H; [reflexivity|].
  destruct H as [Hd Ht]. cbn [append JSText.getSubstitution].
  destruct (Ascii.eqb d "$"); [discriminate|]. now rewrite (IH Ht).
Qed.

Lemma getSubstitution_id (before matched after template : string) :
  lacks "$" template ->
  JSText.getSubstitution before matched after template = template.
Proof.
  intros H. rewrite <- (append_nil_r template) at 1.
  rewrite getSubstitution_plain by exact H. cbn. apply append_nil_r.
Qed.

Lemma placeholder_first (pre post : string) :
  ~ occurs Server.placeholder pre ->
  JSText.find Server.placeholder (pre ++ Server.placeholder ++ post)
  = Some (pre, post).
Proof.
  apply (find_first "<" "!--ENV_INJECTION-->"). unfold lacks. cbn. tauto.
Qed.

(** The script is the key between two fixed texts without a dollar
    sign. *)
Lemma envScript_parts :
  exists head tail : string,
    lacks "$" head /\ lacks "$" tail
    /\ forall API_KEY : option string,
         Server.envScript API_KEY
         = (head ++ Server.key_text API_KEY ++ tail)%string.
Proof.
  exists (Server.nl ++ "      <script>" ++ Server.nl ++ "        window.env = {"
          ++ Server.nl ++ "          API_KEY: " ++ String JSON.dquote EmptyString)%string.
  exists (String JSON.dquote EmptyString ++ Server.nl ++ "        };"
          ++ Server.nl ++ "      </script>" ++ Server.nl ++ "    ")%string.
  split; [unfold lacks; cbn; tauto|]. split; [unfold lacks; cbn; tauto|].
  intros API_KEY. unfold Server.envScript. rewrite !append_assoc. reflexivity.
Qed.

Lemma envScript_plain (API_KEY : option string) :
  lacks "$" (Server.key_text API_KEY) -> lacks "$" (Server.envScript API_KEY).
Proof.
  intros H. destruct envScript_parts as (head & tail & Hh & Ht & E).
  rewrite E. apply lacks_app. split; [exact Hh|]. apply lacks_app. now split.
Qed.



(** X18. The key is not copied into the page letter by letter: it goes
    through the replacement patterns of [String.prototype.replace], and
    where the key holds two dollar signs in a row the page holds one. *)
Theorem dollars_in_key_collapse :
  forall k1 k2 pre post : string,
    lacks "$" k1 -> lacks "$" k2 ->
    ~ occurs Server.placeholder pre ->
    Server.body
      (Server.serve (Some (k1 ++ "$$" ++ k2))
         (Some (pre ++ Server.placeholder ++ post)))
    = (pre ++ Server.envScript (Some (k1 ++ "$" ++ k2)) ++ post)%string.
Proof.
  intros k1 k2 pre post H1 H2 Hpre. cbn [Server.serve Server.body].
  unfold JSText.replace. rewrite (placeholder_first pre post Hpre).
  do 2 f_equal. destruct envScript_parts as (head & tail & Hh & Ht & E).
  rewrite !E. cbn [Server.key_text].
  rewrite getSubstitution_plain by exact Hh. f_equal.
  rewrite !append_assoc.
  rewrite getSubstitution_plain by exact H1. f_equal.
  cbn [append JSText.getSubstitution]. rewrite !Ascii.eqb_refl. f_equal.
  rewrite getSubstitution_plain by exact H2. f_equal.
  now apply getSubstitution_id.
Qed.

Lemma dollars_in_key_collapse_witness :
  lacks "$" "pa" /\ lacks "$" "s"
  /\ ~ occurs Server.placeholder "<head>"
  /\ Server.body
       (Server.serve (Some ("pa" ++ "$$" ++ "s")%string)
          (Some ("<head>" ++ Server.placeholder ++ "</head>")%string))
     = ("<head>" ++ Server.envScript (Some ("pa" ++ "$" ++ "s")%string)
        ++ "</head>")%string.
Proof.
  assert (H1 : lacks "$" "pa") by (unfold lacks; cbn; tauto).
  assert (H2 : lacks "$" "s") by (unfold lacks; cbn; tauto).
  assert (Hpre : ~ occurs Server.placeholder "<head>")
    by (intros H; apply includes_occurs in H; discriminate).
  split; [exact H1|]. split; [exact H2|]. split; [exact Hpre|].
  exact (dollars_in_key_collapse "pa" "s" "<head>" "</head>" H1 H2 Hpre).
Defined.

(** * The payload counter *)

Local Open Scope list_scope.

Lemma highs_nonneg (draws : list bool) : (0 <= highs draws)%Z.
Proof. unfold highs. lia. Qed.

Lemma highs_app (draws more : list bool) :
  highs (draws ++ more) = (highs draws + highs more)%Z.
Proof. unfold highs. rewrite filter_app, length_app. lia. Qed.

Lemma cookieBuffer_fold (draws : list bool) :
  forall start : Z,
    (0 <= start)%Z ->
    fold_left (fun prev above => Status.cookieBuffer_update above prev) draws
      start
    = Z.max 0 (start - highs draws).
Proof.
  induction draws as [|above draws IH]; intros start Hstart; cbn [fold_left].
  - unfold highs. cbn. lia.
  - rewrite IH by (unfold Status.cookieBuffer_update; lia).
    replace (highs (above :: draws))
      with ((if above then 1 else 0) + highs draws)%Z
      by (unfold highs; destruct above; cbn [filter length]; lia).
    pose proof (highs_nonneg draws).
    unfold Status.cookieBuffer_update. destruct above; lia.
Qed.

(** X19. The payload only drains: after any number of updates it is 84
    less the number of draws above the threshold, or zero when that
    would be negative; so it stays between 0 and 84, never goes up, and
    stays at zero once it is there. *)
Theorem payload_only_drains :
  forall draws : list bool,
    Status.cookieBuffer_after draws = Z.max 0 (84 - highs draws)
    /\ (0 <= Status.cookieBuffer_after draws <= 84)%Z
    /\ forall more : list bool,
         (Status.cookieBuffer_after (draws ++ more)
          <= Status.cookieBuffer_after draws)%Z
         /\ (Status.cookieBuffer_after draws = 0%Z ->
             Status.cookieBuffer_after (draws ++ more) = 0%Z).
Proof.
  assert (E : forall draws,
             Status.cookieBuffer_after draws = Z.max 0 (84 - highs draws)).
  { intros draws. unfold Status.cookieBuffer_after, Status.initial_cookieBuffer.
    apply cookieBuffer_fold. lia. }
  intros draws. pose proof (highs_nonneg draws).
  split; [apply E|]. split; [rewrite E; lia|].
  intros more. pose proof (highs_nonneg more).
  rewrite !E, highs_app. lia.
Qed.
